(** * Sampler: pitch resolution and voice lifecycle

    A shallow embedding of the [Sampler] class of Tone.js
    (the instrument that repitches the closest stored sample), with the
    properties of its nearest-sample search, of its table of active
    sources and of its attack / release operations. *)

From Stdlib Require Import ZArith List Lia Lra String Reals.
From stdpp Require Import base option list gmap.
Import ListNotations.

Local Open Scope Z_scope.

(** ** Collaborators

    Everything the class imports and only calls: the conversion of a
    frequency descriptor to a MIDI number, the clock, the buffer store and
    the equal-tempered ratio.  They are kept abstract. *)

Class Collaborators : Type := {
  (** [Units.Frequency]: a note name, a frequency in hertz, ... *)
  Frequency : Type;
  (** [new FrequencyClass(this.context, note).toMidi()] *)
  toMidi : Frequency -> Z;
  (** [Units.Time]: a time descriptor; seconds are values of it. *)
  Time : Type;
  (** [this.toSeconds(time)] *)
  toSeconds : Time -> Time;
  (** [+] on seconds *)
  time_add : Time -> Time -> Time;
  (** the value [undefined], passed where a time is left out *)
  time_undefined : Time;
  (** [Units.NormalRange] *)
  NormalRange : Type;
  (** [ToneAudioBuffer], the handle of a decoded sample *)
  ToneAudioBuffer : Type;
  (** the type of a playback rate, and [intervalToFrequencyRatio] *)
  Ratio : Type;
  intervalToFrequencyRatio : Z -> Ratio;
  (** what [ToneAudioBuffers.dispose()] leaves of the store *)
  buffers_dispose : gmap Z ToneAudioBuffer -> gmap Z ToneAudioBuffer
}.

(** ** Errors and completions *)

(** The two [Error]s the class raises, and the one of the buffer store. *)
Inductive Error : Type :=
  | NoAvailableBuffers (midi : Z)
      (* Error(`No available buffers for note: ${midi}`) *)
  | AssertionFailed (message : string).
      (* this.assert(false, message) *)

(** How a call completes: it returns, or it throws. *)
Inductive Completion (A : Type) : Type :=
  | Normal (a : A)
  | Throw (e : Error).
Arguments Normal {A} a.
Arguments Throw {A} e.

(** A method body: it runs on the object's state, mutates it, and returns
    or throws.  The state mutated before a [throw] stays mutated. *)
Definition Method (St A : Type) : Type := St -> Completion A * St.

Definition ret {St A} (a : A) : Method St A := fun s => (Normal a, s).

Definition throw {St A} (e : Error) : Method St A := fun s => (Throw e, s).

Definition bind {St A B} (m : Method St A) (k : A -> Method St B)
    : Method St B :=
  fun s =>
    match m s with
    | (Normal a, s') => k a s'
    | (Throw e, s') => (Throw e, s')
    end.

(** Read the object. *)
Definition this {St} : Method St St := fun s => (Normal s, s).

(** Mutate the object. *)
Definition update {St} (f : St -> St) : Method St unit :=
  fun s => (Normal tt, f s).

(** A value computed by a pure, possibly throwing, expression. *)
Definition lift {St A} (c : Completion A) : Method St A := fun s => (c, s).

(** [this.assert(statement, error)] *)
Definition assert {St} (statement : bool) (error : string) : Method St unit :=
  if statement then ret tt else throw (AssertionFailed error).

Declare Scope method_scope.
Delimit Scope method_scope with method.
Notation "x <- m ;; k" := (bind m (fun x => k))
  (at level 100, m at next level, right associativity) : method_scope.
Notation "m ;; k" := (bind m (fun _ => k))
  (at level 100, right associativity) : method_scope.

(** [array.forEach(callback)] *)
Fixpoint forEach {St A} (callback : A -> Method St unit) (array : list A)
    : Method St unit :=
  match array with
  | [] => ret tt
  | element :: rest => bind (callback element) (fun _ => forEach callback rest)
  end.

(** [array.forEach((element, index) => ...)], counting from [index]. *)
Fixpoint forEach_from {St A} (index : nat)
    (callback : A -> nat -> Method St unit) (array : list A)
    : Method St unit :=
  match array with
  | [] => ret tt
  | element :: rest =>
      bind (callback element index)
           (fun _ => forEach_from (S index) callback rest)
  end.

(** An argument typed [T | T[]]. *)
Inductive OneOrMany (A : Type) : Type :=
  | One (a : A)
  | Many (array : list A).
Arguments One {A} a.
Arguments Many {A} array.

(** [Array.isArray(x)] *)
Definition isArray {A} (x : OneOrMany A) : bool :=
  match x with One _ => false | Many _ => true end.

(** [if (!Array.isArray(notes)) notes = [notes]] *)
Definition toArray {A} (x : OneOrMany A) : list A :=
  match x with One a => [a] | Many array => array end.

(** [array[i]] for a number [i]: [undefined] out of range. *)
Definition array_at {A} (undefined : A) (array : list A) (i : Z) : A :=
  if i <? 0 then undefined else nth (Z.to_nat i) array undefined.

(** ** [Map<number, V>], in insertion order *)

Fixpoint Map_get {V} (m : list (Z * V)) (key : Z) : option V :=
  match m with
  | [] => None
  | (k, v) :: m' => if Z.eqb key k then Some v else Map_get m' key
  end.

Definition Map_has {V} (m : list (Z * V)) (key : Z) : bool :=
  match Map_get m key with Some _ => true | None => false end.

(** [m.set(key, value)]: an existing key keeps its place. *)
Fixpoint Map_set {V} (m : list (Z * V)) (key : Z) (value : V) : list (Z * V) :=
  match m with
  | [] => [(key, value)]
  | (k, v) :: m' =>
      if Z.eqb key k then (k, value) :: m' else (k, v) :: Map_set m' key value
  end.

Definition MAX_INTERVAL : Z := 96.

(** ** The class *)

Section Sampler.

Context `{Collaborators}.

(** [ToneAudioBuffers.has(key)] *)
Definition buffers_has (buffers : gmap Z ToneAudioBuffer) (key : Z) : bool :=
  bool_decide (is_Some (buffers !! key)).

(** The [while (interval < MAX_INTERVAL)] loop of [_findClosest];
    [iterations] counts the rounds the guard still allows, which is
    [MAX_INTERVAL - interval]. *)
Fixpoint _findClosest_while (iterations : nat)
    (buffers : gmap Z ToneAudioBuffer) (midi interval : Z) : Completion Z :=
  match iterations with
  | O => Throw (NoAvailableBuffers midi)
  | S iterations' =>
      if buffers_has buffers (midi + interval) then Normal (- interval)
      else if buffers_has buffers (midi - interval) then Normal interval
      else _findClosest_while iterations' buffers midi (interval + 1)
  end.

(** [_findClosest(midi)] *)
Definition _findClosest (buffers : gmap Z ToneAudioBuffer) (midi : Z)
    : Completion Z :=
  _findClosest_while (Z.to_nat MAX_INTERVAL) buffers midi 0.


(** [ToneAudioBuffers.get(key)]; a missing key is a contract violation of
    the store. *)
Definition buffers_get (buffers : gmap Z ToneAudioBuffer) (key : Z)
    : Completion ToneAudioBuffer :=
  match buffers !! key with
  | Some buffer => Normal buffer
  | None => Throw (AssertionFailed "ToneAudioBuffers has no buffer named")
  end.

Inductive ToneBufferSourceCurve : Type := linear | exponential.

(** A [ToneBufferSource] object: its identity and the options it was
    built with. *)
Record ToneBufferSource : Type := {
  source_id : nat;
  source_buffer : ToneAudioBuffer;
  source_curve : ToneBufferSourceCurve;
  source_fadeIn : Time;
  source_fadeOut : Time;
  source_playbackRate : Ratio
}.

(** The calls the class makes on its collaborators, as they happen. *)
Inductive Call : Type :=
  | SourceStart (source : ToneBufferSource) (time : Time)
      (velocity : NormalRange)
      (* source.start(time, 0, buffer.duration / playbackRate, velocity) *)
  | SourceStop (source : ToneBufferSource) (time : Time)
      (* source.stop(time) *)
  | SourceDispose (source : ToneBufferSource)
      (* source.dispose() *)
  | BuffersDispose
      (* this._buffers.dispose() *)
  | InstrumentDispose.
      (* super.dispose() *)

(** The fields of a [Sampler], the number of sources it has built so far
    (the identity of the next one) and the calls it has made. *)
Record Sampler : Type := {
  _buffers : gmap Z ToneAudioBuffer;
  _activeSources : list (Z * list ToneBufferSource);
  attack : Time;
  release : Time;
  curve : ToneBufferSourceCurve;
  allocated : nat;
  calls : list Call
}.

Definition set_buffers (f : gmap Z ToneAudioBuffer -> gmap Z ToneAudioBuffer)
    (s : Sampler) : Sampler :=
  {| _buffers := f (_buffers s); _activeSources := _activeSources s;
     attack := attack s; release := release s; curve := curve s;
     allocated := allocated s; calls := calls s |}.

Definition set_activeSources
    (f : list (Z * list ToneBufferSource) -> list (Z * list ToneBufferSource))
    (s : Sampler) : Sampler :=
  {| _buffers := _buffers s; _activeSources := f (_activeSources s);
     attack := attack s; release := release s; curve := curve s;
     allocated := allocated s; calls := calls s |}.

Definition set_allocated (f : nat -> nat) (s : Sampler) : Sampler :=
  {| _buffers := _buffers s; _activeSources := _activeSources s;
     attack := attack s; release := release s; curve := curve s;
     allocated := f (allocated s); calls := calls s |}.

Definition set_calls (f : list Call -> list Call) (s : Sampler) : Sampler :=
  {| _buffers := _buffers s; _activeSources := _activeSources s;
     attack := attack s; release := release s; curve := curve s;
     allocated := allocated s; calls := f (calls s) |}.

(** One call on a collaborator. *)
Definition call (c : Call) : Method Sampler unit :=
  update (set_calls (fun cs => cs ++ [c])).

Local Open Scope method_scope.

(** [new ToneBufferSource({ buffer, curve, fadeIn, fadeOut, playbackRate })] *)
Definition new_ToneBufferSource (buffer : ToneAudioBuffer)
    (playbackRate : Ratio) : Method Sampler ToneBufferSource :=
  s <- this ;;
  update (set_allocated S) ;;
  ret {| source_id := allocated s;
         source_buffer := buffer;
         source_curve := curve s;
         source_fadeIn := attack s;
         source_fadeOut := release s;
         source_playbackRate := playbackRate |}.

(** The callback of [notes.forEach] in [triggerAttack].  The search and
    the lookup of the buffer read the store; the source is built, started
    and pushed under [midi], the key of the note as requested.  The test
    [!isArray(this._activeSources.get(midi))] is the test that the key has
    no entry, as every value of the table is an array.  [this.log] and the
    wiring [connect(this.output)] change nothing of the instrument; the
    [onended] callback given to the source is the method [onended] below,
    which the source runs later, on its own. *)
Definition triggerAttack_note (time : Time) (velocity : NormalRange)
    (note : Frequency) : Method Sampler unit :=
  let midi := toMidi note in
  s <- this ;;
  difference <- lift (_findClosest (_buffers s) midi) ;;
  let closestNote := midi - difference in
  buffer <- lift (buffers_get (_buffers s) closestNote) ;;
  let playbackRate := intervalToFrequencyRatio difference in
  source <- new_ToneBufferSource buffer playbackRate ;;
  call (SourceStart source time velocity) ;;
  s <- this ;;
  (if Map_has (_activeSources s) midi then ret tt
   else update (set_activeSources (fun m => Map_set m midi []))) ;;
  update (set_activeSources (fun m =>
    match Map_get m midi with
    | Some sources => Map_set m midi (sources ++ [source])
    | None => m
    end)).

(** [triggerAttack(notes, time, velocity)] *)
Definition triggerAttack (notes : OneOrMany Frequency) (time : Time)
    (velocity : NormalRange) : Method Sampler unit :=
  forEach (triggerAttack_note time velocity) (toArray notes).

(** [sources.splice(sources.indexOf(source), 1)] when the index is not -1:
    the first occurrence of the object [source], found by identity, is
    taken out; nothing is when it is not there. *)
Fixpoint splice_source (source : ToneBufferSource)
    (sources : list ToneBufferSource) : list ToneBufferSource :=
  match sources with
  | [] => []
  | x :: rest =>
      if Nat.eqb (source_id x) (source_id source) then rest
      else x :: splice_source source rest
  end.

(** The [onended] callback that [triggerAttack] gives a source: the source
    takes itself out of the array under the key it was pushed under, if
    the key is still there. *)
Definition onended (midi : Z) (source : ToneBufferSource)
    : Method Sampler unit :=
  update (set_activeSources (fun m =>
    match Map_get m midi with
    | Some sources => Map_set m midi (splice_source source sources)
    | None => m
    end)).

(** The callback of [notes.forEach] in [triggerRelease]; it reassigns the
    variable [time] of the method, so the new value is returned. *)
Definition triggerRelease_note (note : Frequency) (time : Time)
    : Method Sampler Time :=
  let midi := toMidi note in
  s <- this ;;
  match Map_get (_activeSources s) midi with
  | Some sources =>
      if (0 <? length sources)%nat then
        let time := toSeconds time in
        forEach (fun source => call (SourceStop source time)) sources ;;
        update (set_activeSources (fun m => Map_set m midi [])) ;;
        ret time
      else ret time
  | None => ret time
  end.

Fixpoint triggerRelease_forEach (notes : list Frequency) (time : Time)
    : Method Sampler unit :=
  match notes with
  | [] => ret tt
  | note :: rest =>
      time <- triggerRelease_note note time ;;
      triggerRelease_forEach rest time
  end.

(** [triggerRelease(notes, time)] *)
Definition triggerRelease (notes : OneOrMany Frequency) (time : Time)
    : Method Sampler unit :=
  triggerRelease_forEach (toArray notes) time.

(** The [while (sources.length)] loop of [releaseAll]: one source is
    shifted out of the array and stopped, until none is left.  It returns
    what is left of the array. *)
Fixpoint releaseAll_while (computedTime : Time)
    (sources : list ToneBufferSource)
    : Method Sampler (list ToneBufferSource) :=
  match sources with
  | [] => ret []
  | source :: sources' =>
      call (SourceStop source computedTime) ;;
      releaseAll_while computedTime sources'
  end.

(** [this._activeSources.forEach(sources => ...)] of [releaseAll]: the
    entries are visited in their order and the array of each is emptied in
    place, so an entry keeps its key and its position.  It returns the
    entries as the loop leaves them. *)
Fixpoint releaseAll_forEach (computedTime : Time)
    (entries : list (Z * list ToneBufferSource))
    : Method Sampler (list (Z * list ToneBufferSource)) :=
  match entries with
  | [] => ret []
  | (midi, sources) :: entries' =>
      left <- releaseAll_while computedTime sources ;;
      entries'' <- releaseAll_forEach computedTime entries' ;;
      ret ((midi, left) :: entries'')
  end.

(** [releaseAll(time)] *)
Definition releaseAll (time : Time) : Method Sampler unit :=
  let computedTime := toSeconds time in
  s <- this ;;
  entries <- releaseAll_forEach computedTime (_activeSources s) ;;
  update (set_activeSources (fun _ => entries)).

(** [triggerAttackRelease(notes, duration, time, velocity)]: the attack
    comes first; the assertion on the shape of [notes] is in the branch of
    an array of durations, after it.  Past the assertion [notes] is an
    array, which the cast [(notes as Frequency[])] reads. *)
Definition triggerAttackRelease (notes : OneOrMany Frequency)
    (duration : OneOrMany Time) (time : Time) (velocity : NormalRange)
    : Method Sampler unit :=
  let computedTime := toSeconds time in
  triggerAttack notes computedTime velocity ;;
  match duration with
  | Many durations =>
      assert (isArray notes) "notes must be an array when duration is array" ;;
      forEach_from 0 (fun note index =>
          let last := Z.of_nat (length durations) - 1 in
          let d := array_at time_undefined durations
                     (Z.min (Z.of_nat index) last) in
          triggerRelease (One note) (time_add computedTime (toSeconds d)))
        (match notes with Many array => array | One _ => [] end)
  | One d =>
      triggerRelease notes (time_add computedTime (toSeconds d))
  end.

(** [dispose()]: the instrument, then the store, then every source of
    the table, then the table itself is cleared. *)
Definition dispose : Method Sampler unit :=
  call InstrumentDispose ;;
  call BuffersDispose ;;
  update (set_buffers buffers_dispose) ;;
  s <- this ;;
  forEach (fun entry : Z * list ToneBufferSource =>
             forEach (fun source => call (SourceDispose source)) (snd entry))
          (_activeSources s) ;;
  update (set_activeSources (fun _ => [])).

(** ** What an attack leaves behind *)

(** The source that [triggerAttack] builds in state [s] for a sample
    [buffer] found at interval [difference]. *)
Definition attack_source (s : Sampler) (buffer : ToneAudioBuffer)
    (difference : Z) : ToneBufferSource :=
  {| source_id := allocated s;
     source_buffer := buffer;
     source_curve := curve s;
     source_fadeIn := attack s;
     source_fadeOut := release s;
     source_playbackRate := intervalToFrequencyRatio difference |}.

(** The array of active sources under [midi]; none when there is no entry. *)
Definition sources_at (s : Sampler) (midi : Z) : list ToneBufferSource :=
  default [] (Map_get (_activeSources s) midi).

(** The state after [source] was built, started at [time] and pushed
    under the key [midi]. *)
Definition attacked (s : Sampler) (midi : Z) (source : ToneBufferSource)
    (time : Time) (velocity : NormalRange) : Sampler :=
  {| _buffers := _buffers s;
     _activeSources :=
       Map_set (_activeSources s) midi (sources_at s midi ++ [source]);
     attack := attack s; release := release s; curve := curve s;
     allocated := S (allocated s);
     calls := calls s ++ [SourceStart source time velocity] |}.

(** Whether a call is a [stop]. *)
Definition is_stop (c : Call) : bool :=
  match c with SourceStop _ _ => true | _ => false end.

(** The state after [dispose()]. *)
Definition disposed (s : Sampler) : Sampler :=
  {| _buffers := buffers_dispose (_buffers s);
     _activeSources := [];
     attack := attack s; release := release s; curve := curve s;
     allocated := allocated s;
     calls := calls s ++ [InstrumentDispose; BuffersDispose] ++
              map SourceDispose (concat (map snd (_activeSources s))) |}.

(** The entries of the table with their arrays emptied. *)
Definition emptied (entries : list (Z * list ToneBufferSource))
    : list (Z * list ToneBufferSource) :=
  map (fun entry => (fst entry, [])) entries.

End Sampler.

(** ** The equal-tempered ratio *)

(** Modelled from the spec: [intervalToFrequencyRatio] is imported from
    core/type/Conversions and its body is not part of this class; the
    ratio is 2^(interval/12), taken here over the real numbers. *)
Definition playbackRatio (interval : Z) : R :=
  Rpower 2 (IZR interval / 12).

(** ** A small instrument to run the class on

    Notes are MIDI numbers, times are whole seconds, a buffer is named by
    a number and the ratio is left as the interval it comes from.  The
    disposed store holds nothing. *)
Definition demo : Collaborators := {|
  Frequency := Z;
  toMidi := fun note => note;
  Time := Z;
  toSeconds := fun time => time;
  time_add := Z.add;
  time_undefined := 0;
  NormalRange := Z;
  ToneAudioBuffer := nat;
  Ratio := Z;
  intervalToFrequencyRatio := fun interval => interval;
  buffers_dispose := fun _ => ∅
|}.

(** A sampler over the store [buffers], nothing sounding. *)
Definition demo_sampler (buffers : gmap Z nat) : @Sampler demo :=
  @Build_Sampler demo buffers [] 0 1 exponential 0%nat [].

(** Stores used below: C3 alone; C3 and E3; one sample 96 semitones up. *)
Definition store_60 : gmap Z nat := {[ 60 := 0%nat ]}.
Definition store_60_64 : gmap Z nat := {[ 60 := 0%nat; 64 := 1%nat ]}.
Definition store_96 : gmap Z nat := {[ 96 := 0%nat ]}.

(** ** The life of the table

    The sources of the whole table, the shape every run of the class keeps
    for it, and the calls a user and the sources can make on the
    instrument. *)

Section Lifecycle.

Context `{Collaborators}.

(** Every source of the table, in the order of the table. *)
Definition table_sources (s : Sampler) : list ToneBufferSource :=
  concat (map snd (_activeSources s)).

(** A key has one entry, a source object is in the table once, and every
    source of the table was built by this instrument. *)
Definition table_consistent (s : Sampler) : Prop :=
  NoDup (map fst (_activeSources s)) /\
  NoDup (map source_id (table_sources s)) /\
  Forall (fun source => (source_id source < allocated s)%nat)
         (table_sources s).

(** Whether a call is a [start]. *)
Definition is_start (c : Call) : bool :=
  match c with SourceStart _ _ _ => true | _ => false end.

(** The source a [start] or a [stop] is made on. *)
Definition call_source (c : Call) : option ToneBufferSource :=
  match c with
  | SourceStart source _ _ => Some source
  | SourceStop source _ => Some source
  | SourceDispose source => Some source
  | _ => None
  end.

(** What can happen to an instrument: a call of one of its methods, or a
    source that ends and runs its [onended] callback. *)
Inductive Operation : Type :=
  | CallTriggerAttack (notes : OneOrMany Frequency) (time : Time)
      (velocity : NormalRange)
  | CallTriggerRelease (notes : OneOrMany Frequency) (time : Time)
  | CallReleaseAll (time : Time)
  | CallTriggerAttackRelease (notes : OneOrMany Frequency)
      (duration : OneOrMany Time) (time : Time) (velocity : NormalRange)
  | CallDispose
  | SourceEnded (midi : Z) (source : ToneBufferSource).

Definition perform (op : Operation) : Method Sampler unit :=
  match op with
  | CallTriggerAttack notes time velocity => triggerAttack notes time velocity
  | CallTriggerRelease notes time => triggerRelease notes time
  | CallReleaseAll time => releaseAll time
  | CallTriggerAttackRelease notes duration time velocity =>
      triggerAttackRelease notes duration time velocity
  | CallDispose => dispose
  | SourceEnded midi source => onended midi source
  end.

(** A run: the operations one after the other; an operation that throws
    leaves the instrument as it was at the throw, and the run goes on. *)
Fixpoint run (ops : list Operation) (s : Sampler) : Sampler :=
  match ops with
  | [] => s
  | op :: ops' => run ops' (snd (perform op s))
  end.

(** The duration that [triggerAttackRelease] pairs with the note at
    [index] when it is given an array of durations. *)
Definition paired_duration (durations : list Time) (index : nat) : Time :=
  array_at time_undefined durations
    (Z.min (Z.of_nat index) (Z.of_nat (length durations) - 1)).

(** A method body that keeps the table in shape, however it completes. *)
Definition keeps_table_consistent {A} (m : Method Sampler A) : Prop :=
  forall s, table_consistent s -> table_consistent (snd (m s)).

End Lifecycle.

(** ** The processor of the feedback comb filter

    The class given to [registerProcessor] by
    [FeedbackCombFilter._audioWorklet]: a delay line of one second, read
    at the current frame and written [delaySamples] frames ahead.  The
    arithmetic of numbers is kept abstract. *)

Module Worklet.

Class Arithmetic : Type := {
  (** a number *)
  Number : Type;
  (** [+] and [*] *)
  plus : Number -> Number -> Number;
  times : Number -> Number -> Number;
  (** the rounding of a number stored into a [Float32Array] *)
  fround : Number -> Number;
  (** what a read outside an array gives *)
  undefined_number : Number;
  (** [Math.floor(delayTime * sampleRate)]; the descriptor of [delayTime]
      keeps the parameter between 0 and 1, so this is an integer *)
  floor_times : Number -> Z -> Z
}.

Section Processor.

Context `{Arithmetic}.

(** [a % b] on integers; [None] is [NaN], the result for [b] = 0. *)
Definition js_rem (a b : Z) : option Z :=
  if Z.eqb b 0 then None else Some (Z.rem a b).

(** [array[i]] of a [Float32Array]. *)
Definition typed_get (array : list Number) (i : option Z) : Number :=
  match i with
  | Some i => array_at undefined_number array i
  | None => undefined_number
  end.

(** [array[i] = value] of a [Float32Array]: the value is rounded, and a
    store outside the array does nothing. *)
Definition typed_set (array : list Number) (i : option Z) (value : Number)
    : list Number :=
  match i with
  | Some i =>
      if i <? 0 then array else <[Z.to_nat i := fround value]> array
  | None => array
  end.

(** The [parameters] of a call of [process]: the values of each
    parameter, one for the block or one for each frame. *)
Record Parameters : Type := {
  param_delayTime : list Number;
  param_feedback : list Number
}.

(** [getParameter(name, index, parameters)], on [parameters[name]]. *)
Definition getParameter (values : list Number) (index : nat) : Number :=
  if (1 <? length values)%nat then nth index values undefined_number
  else nth 0 values undefined_number.

(** What [process] mutates: the delay line and the arrays of [outputs[0]]. *)
Record State : Type := {
  delayBuffer : list Number;
  output : list (list Number)
}.

(** How a callback ends: it returns, or the store into a channel that
    [output] does not have throws a [TypeError]. *)
Inductive Outcome : Type := Completed | TypeErrorThrown.

(** The callback of [inputChannel.forEach]. *)
Definition process_value (sampleRate currentFrame delayLength : Z)
    (parameters : Parameters) (channelNum : nat)
    (value : Number) (index : nat) (st : State) : Outcome * State :=
  let delayTime := getParameter (param_delayTime parameters) index in
  let feedback := getParameter (param_feedback parameters) index in
  let delaySamples := floor_times delayTime sampleRate in
  let currentIndex := js_rem (currentFrame + Z.of_nat index) delayLength in
  let delayedIndex :=
    js_rem (currentFrame + Z.of_nat index + delaySamples) delayLength in
  let currentValue := typed_get (delayBuffer st) currentIndex in
  let buffer' :=
    typed_set (delayBuffer st) delayedIndex
      (plus value (times currentValue feedback)) in
  match output st !! channelNum with
  | None =>
      (TypeErrorThrown, {| delayBuffer := buffer'; output := output st |})
  | Some channel =>
      let channel' :=
        typed_set channel (Some (Z.of_nat index))
          (if 0 <? delaySamples then currentValue else value) in
      (Completed,
       {| delayBuffer := buffer';
          output := <[channelNum := channel']> (output st) |})
  end.

(** [inputChannel.forEach((value, index) => ...)], from [index] on. *)
Fixpoint channel_forEach (callback : Number -> nat -> State -> Outcome * State)
    (index : nat) (inputChannel : list Number) (st : State)
    : Outcome * State :=
  match inputChannel with
  | [] => (Completed, st)
  | value :: rest =>
      match callback value index st with
      | (Completed, st') => channel_forEach callback (S index) rest st'
      | thrown => thrown
      end
  end.

(** [input.forEach((inputChannel, channelNum) => ...)], from
    [channelNum] on. *)
Fixpoint input_forEach (sampleRate currentFrame delayLength : Z)
    (parameters : Parameters) (channelNum : nat)
    (input : list (list Number)) (st : State) : Outcome * State :=
  match input with
  | [] => (Completed, st)
  | inputChannel :: rest =>
      match channel_forEach
              (process_value sampleRate currentFrame delayLength
                 parameters channelNum) 0 inputChannel st with
      | (Completed, st') =>
          input_forEach sampleRate currentFrame delayLength parameters
            (S channelNum) rest st'
      | thrown => thrown
      end
  end.

(** [process(inputs, outputs, parameters)], with the globals
    [sampleRate] and [currentFrame]: the delay line and [outputs[0]] as
    the call leaves them, and [Some true] when it returns [true], [None]
    when it throws. *)
Definition process (sampleRate currentFrame : Z)
    (inputs outputs : list (list (list Number))) (parameters : Parameters)
    (buffer : list Number)
    : option bool * list Number * option (list (list Number)) :=
  match inputs !! 0%nat, outputs !! 0%nat with
  | Some input, Some output0 =>
      let delayLength := Z.of_nat (length buffer) in
      match input_forEach sampleRate currentFrame delayLength parameters 0
              input {| delayBuffer := buffer; output := output0 |} with
      | (Completed, st) => (Some true, delayBuffer st, Some (output st))
      | (TypeErrorThrown, st) => (None, delayBuffer st, Some (output st))
      end
  | _, output0 => (Some true, buffer, output0)
  end.

(** What the frame [j] of a block reads from the delay line [buffer] when
    the line holds [D] frames of delay: the line as it was for the first
    [D] frames, and after that what the frame [j - D] stored, which is the
    input of that frame plus [feedback] times what that frame read. *)
Definition comb_reads (buffer : list Number) (currentFrame : Z) (D : nat)
    (feedback : Number) (xs : list Number) (reads : list Number) : Prop :=
  length reads = length xs /\
  forall j, (j < length xs)%nat ->
    nth j reads undefined_number =
    if (j <? D)%nat then
      nth (Z.to_nat ((currentFrame + Z.of_nat j)
                     mod Z.of_nat (length buffer))) buffer undefined_number
    else
      fround (plus (nth (j - D) xs undefined_number)
                   (times (nth (j - D) reads undefined_number) feedback)).

End Processor.

End Worklet.

(** A small arithmetic to run the processor on: numbers are integers,
    nothing is rounded, a read outside an array gives 0 and the delay
    time is given as a count of frames. *)
Definition demo_arithmetic : Worklet.Arithmetic := {|
  Worklet.Number := Z;
  Worklet.plus := Z.add;
  Worklet.times := Z.mul;
  Worklet.fround := fun x => x;
  Worklet.undefined_number := 0;
  Worklet.floor_times := fun delayTime _ => delayTime
|}.

(** * Properties *)

(** ** The table of active sources *)

Lemma Map_get_set_eq {V} (m : list (Z * V)) key value :
  Map_get (Map_set m key value) key = Some value.
Proof.
  induction m as [| [k v] m IH]; simpl.
  - now rewrite Z.eqb_refl.
  - destruct (Z.eqb_spec key k) as [-> | Hne]; simpl.
    + now rewrite Z.eqb_refl.
    + destruct (Z.eqb_spec key k); [contradiction | exact IH].
Qed.

Lemma Map_get_set_ne {V} (m : list (Z * V)) key key' value :
  key' <> key ->
  Map_get (Map_set m key value) key' = Map_get m key'.
Proof.
  intros Hne. induction m as [| [k v] m IH]; simpl.
  - destruct (Z.eqb_spec key' key); [contradiction | reflexivity].
  - destruct (Z.eqb_spec key k) as [-> | Hk]; simpl.
    + destruct (Z.eqb_spec key' k); [contradiction | reflexivity].
    + destruct (Z.eqb_spec key' k); [reflexivity | exact IH].
Qed.

Lemma Map_set_set {V} (m : list (Z * V)) key value value' :
  Map_set (Map_set m key value) key value' = Map_set m key value'.
Proof.
  induction m as [| [k v] m IH]; simpl.
  - now rewrite Z.eqb_refl.
  - destruct (Z.eqb_spec key k) as [-> | Hne]; simpl.
    + now rewrite Z.eqb_refl.
    + destruct (Z.eqb_spec key k); [contradiction | now rewrite IH].
Qed.

Lemma Map_has_get {V} (m : list (Z * V)) key :
  Map_has m key = true <-> exists value, Map_get m key = Some value.
Proof.
  unfold Map_has. destruct (Map_get m key) as [value |].
  - split; [eauto | reflexivity].
  - split; [discriminate | intros [value Hv]; discriminate].
Qed.

Section Properties.

Context `{Collaborators}.

(** ** The search for the closest sample *)

(** The loop, read with its guard as the source writes it. *)
Lemma _findClosest_while_guard buffers midi interval :
  0 <= interval ->
  _findClosest_while (Z.to_nat (MAX_INTERVAL - interval))
    buffers midi interval =
  if interval <? MAX_INTERVAL then
    if buffers_has buffers (midi + interval) then Normal (- interval)
    else if buffers_has buffers (midi - interval) then Normal interval
    else _findClosest_while (Z.to_nat (MAX_INTERVAL - (interval + 1)))
           buffers midi (interval + 1)
  else Throw (NoAvailableBuffers midi).
Proof.
  intros Hi. destruct (Z.ltb_spec interval MAX_INTERVAL) as [Hlt | Hge].
  - replace (Z.to_nat (MAX_INTERVAL - interval))
      with (S (Z.to_nat (MAX_INTERVAL - (interval + 1)))) by lia.
    reflexivity.
  - replace (Z.to_nat (MAX_INTERVAL - interval)) with O by lia.
    reflexivity.
Qed.

(** What a successful search has seen: nothing at any radius below [r],
    and a key at radius [r], the one above tried first. *)
Lemma _findClosest_while_Normal iterations buffers midi interval d :
  _findClosest_while iterations buffers midi interval = Normal d ->
  exists r,
    interval <= r < interval + Z.of_nat iterations /\
    (forall j, interval <= j < r ->
       buffers_has buffers (midi + j) = false /\
       buffers_has buffers (midi - j) = false) /\
    ((buffers_has buffers (midi + r) = true /\ d = - r) \/
     (buffers_has buffers (midi + r) = false /\
      buffers_has buffers (midi - r) = true /\ d = r)).
Proof.
  revert interval.
  induction iterations as [| n IH]; intros interval Hrun; simpl in Hrun.
  - discriminate.
  - destruct (buffers_has buffers (midi + interval)) eqn:Habove.
    + injection Hrun as <-. exists interval.
      split; [lia |]. split; [intros j Hj; lia |]. left. auto.
    + destruct (buffers_has buffers (midi - interval)) eqn:Hbelow.
      * injection Hrun as <-. exists interval.
        split; [lia |]. split; [intros j Hj; lia |]. right. auto.
      * destruct (IH _ Hrun) as (r & Hr & Hnone & Hfound).
        exists r. split; [lia |]. split; [| exact Hfound].
        intros j Hj. destruct (Z.eq_dec j interval) as [-> | Hne].
        -- auto.
        -- apply Hnone. lia.
Qed.

(** The search throws exactly when no radius of the loop has a key. *)
Lemma _findClosest_while_Throw iterations buffers midi interval :
  (exists e, _findClosest_while iterations buffers midi interval = Throw e) <->
  (forall j, interval <= j < interval + Z.of_nat iterations ->
     buffers_has buffers (midi + j) = false /\
     buffers_has buffers (midi - j) = false).
Proof.
  revert interval. induction iterations as [| n IH]; intros interval; simpl.
  - split; [intros _ j Hj; lia | intros _; eauto].
  - destruct (buffers_has buffers (midi + interval)) eqn:Habove.
    { split.
      - intros [e He]. discriminate.
      - intros Hall. destruct (Hall interval) as [Ha _]; [lia | congruence]. }
    destruct (buffers_has buffers (midi - interval)) eqn:Hbelow.
    { split.
      - intros [e He]. discriminate.
      - intros Hall. destruct (Hall interval) as [_ Hb]; [lia | congruence]. }
    rewrite IH. split.
    + intros Hall j Hj. destruct (Z.eq_dec j interval) as [-> | Hne]; [auto |].
      apply Hall. lia.
    + intros Hall j Hj. apply Hall. lia.
Qed.

(** The error of a failed search names the requested note. *)
Lemma _findClosest_while_error iterations buffers midi interval e :
  _findClosest_while iterations buffers midi interval = Throw e ->
  e = NoAvailableBuffers midi.
Proof.
  revert interval. induction iterations as [| n IH]; intros interval; simpl.
  - congruence.
  - destruct (buffers_has buffers (midi + interval)); [discriminate |].
    destruct (buffers_has buffers (midi - interval)); [discriminate |].
    apply IH.
Qed.


Lemma buffers_has_true buffers key :
  buffers_has buffers key = true <->
  exists buffer, buffers !! key = Some buffer.
Proof.
  unfold buffers_has. rewrite bool_decide_eq_true. reflexivity.
Qed.

(** A stored key at distance [j] is the key above or the key below. *)
Lemma stored_at_distance buffers K S :
  buffers_has buffers S = true ->
  buffers_has buffers (K + Z.abs (K - S)) = true \/
  buffers_has buffers (K - Z.abs (K - S)) = true.
Proof.
  intros HS. destruct (Z.le_gt_cases K S) as [Hle | Hgt].
  - left. replace (K + Z.abs (K - S)) with S by lia. exact HS.
  - right. replace (K - Z.abs (K - S)) with S by lia. exact HS.
Qed.

(** C1: when [_findClosest] returns an interval [d] for the requested key
    [K], the key [K - d] is stored, no stored key is nearer to [K], and a
    stored key at the same distance is not above it: of two keys that tie,
    the upper one is taken.  The interval is minus the radius for a key
    above and the radius for a key below, and the radius is under
    [MAX_INTERVAL]. *)
Theorem findClosest_nearest_upper_first buffers K d :
  _findClosest buffers K = Normal d ->
  buffers_has buffers (K - d) = true /\
  (forall S, buffers_has buffers S = true ->
     Z.abs (K - (K - d)) <= Z.abs (K - S)) /\
  (forall S, buffers_has buffers S = true ->
     Z.abs (K - S) = Z.abs (K - (K - d)) -> S <= K - d) /\
  (K <= K - d -> d = - Z.abs d) /\
  (K - d < K -> d = Z.abs d) /\
  Z.abs d < MAX_INTERVAL.
Proof.
  unfold _findClosest. intros Hrun.
  apply _findClosest_while_Normal in Hrun as (r & Hr & Hnone & Hfound).
  assert (Hmin : forall S, buffers_has buffers S = true -> r <= Z.abs (K - S)).
  { intros S HS.
    destruct (Z.le_gt_cases r (Z.abs (K - S))) as [| Hlt]; [easy |].
    destruct (Hnone (Z.abs (K - S))) as [Ha Hb]; [lia |].
    destruct (stored_at_distance buffers K S HS); congruence. }
  destruct Hfound as [[Habove ->] | (Habove & Hbelow & ->)].
  - replace (K - - r) with (K + r) by lia.
    split; [exact Habove |].
    split; [intros S HS; specialize (Hmin S HS); lia |].
    split; [intros S HS Heq; lia |].
    lia.
  - split; [exact Hbelow |].
    split; [intros S HS; specialize (Hmin S HS); lia |].
    split; [| lia].
    intros S HS Heq.
    destruct (Z.le_gt_cases S (K - r)) as [| Hgt]; [easy |].
    assert (S = K + r) by lia. subst S. congruence.
Qed.

(** C2 (amended): [_findClosest] throws, with the error that names the
    requested key, exactly when every stored key is at least
    [MAX_INTERVAL] = 96 semitones away: the radius is exclusive, so a
    nearest key at distance 95 resolves and one at distance 96 fails. *)
Theorem findClosest_fails_iff_none_within_radius buffers K :
  _findClosest buffers K = Throw (NoAvailableBuffers K) <->
  (forall S, buffers_has buffers S = true -> MAX_INTERVAL <= Z.abs (K - S)).
Proof.
  unfold _findClosest. split.
  - intros Hrun S HS.
    assert (Hex : exists e,
      _findClosest_while (Z.to_nat MAX_INTERVAL) buffers K 0 = Throw e)
      by eauto.
    rewrite _findClosest_while_Throw in Hex.
    destruct (Z.le_gt_cases MAX_INTERVAL (Z.abs (K - S))) as [| Hlt]; [easy |].
    destruct (Hex (Z.abs (K - S))) as [Ha Hb].
    { change (Z.of_nat (Z.to_nat MAX_INTERVAL)) with MAX_INTERVAL. lia. }
    destruct (stored_at_distance buffers K S HS); congruence.
  - intros Hfar.
    assert (Hex : exists e,
      _findClosest_while (Z.to_nat MAX_INTERVAL) buffers K 0 = Throw e).
    { rewrite _findClosest_while_Throw. intros j Hj.
      change (Z.of_nat (Z.to_nat MAX_INTERVAL)) with MAX_INTERVAL in Hj.
      split.
      - destruct (buffers_has buffers (K + j)) eqn:Hs; [| reflexivity].
        specialize (Hfar _ Hs). lia.
      - destruct (buffers_has buffers (K - j)) eqn:Hs; [| reflexivity].
        specialize (Hfar _ Hs). lia. }
    destruct Hex as [e He]. rewrite He.
    now rewrite (_findClosest_while_error _ _ _ _ _ He).
Qed.

(** ** Running the methods *)

Lemma set_calls_nil (s : Sampler) : set_calls (fun cs => cs ++ []) s = s.
Proof. destruct s. unfold set_calls. simpl. now rewrite app_nil_r. Qed.

Lemma forEach_call {A} (f : A -> Call) (array : list A) (s : Sampler) :
  forEach (fun x => call (f x)) array s =
  (Normal tt, set_calls (fun cs => cs ++ map f array) s).
Proof.
  revert s. induction array as [| x array IH]; intros s; simpl.
  - unfold ret. now rewrite set_calls_nil.
  - unfold bind, call, update. rewrite IH. f_equal.
    destruct s. unfold set_calls. simpl. now rewrite <- app_assoc.
Qed.

(** The key that a successful search points at holds a buffer. *)
Lemma _findClosest_stored buffers midi d :
  _findClosest buffers midi = Normal d ->
  exists buffer, buffers !! (midi - d) = Some buffer.
Proof.
  unfold _findClosest. intros Hrun. apply buffers_has_true.
  apply _findClosest_while_Normal in Hrun as (r & _ & _ & Hfound).
  destruct Hfound as [[Habove ->] | (_ & Hbelow & ->)].
  - now replace (midi - - r) with (midi + r) by lia.
  - exact Hbelow.
Qed.

(** A search ends one way or the other. *)
Lemma _findClosest_cases buffers midi :
  (exists d, _findClosest buffers midi = Normal d) \/
  _findClosest buffers midi = Throw (NoAvailableBuffers midi).
Proof.
  unfold _findClosest.
  destruct (_findClosest_while (Z.to_nat MAX_INTERVAL) buffers midi 0)
    as [d | e] eqn:Hrun.
  - left. eauto.
  - right. now rewrite (_findClosest_while_error _ _ _ _ _ Hrun).
Qed.

(** One resolved note: the source is built, started and pushed under the
    requested key. *)
Lemma triggerAttack_note_resolved s note time velocity d buffer :
  _findClosest (_buffers s) (toMidi note) = Normal d ->
  _buffers s !! (toMidi note - d) = Some buffer ->
  triggerAttack_note time velocity note s =
  (Normal tt,
   attacked s (toMidi note) (attack_source s buffer d) time velocity).
Proof.
  intros Hfind Hbuf.
  unfold triggerAttack_note, bind, this, lift, buffers_get.
  rewrite Hfind, Hbuf.
  unfold new_ToneBufferSource, bind, this, update, ret, call, update.
  unfold attacked, sources_at, attack_source. cbn.
  unfold Map_has.
  destruct (Map_get (_activeSources s) (toMidi note)) as [sources |] eqn:Hget;
    unfold set_activeSources, set_calls, set_allocated; cbn.
  - rewrite Hget. reflexivity.
  - rewrite Map_get_set_eq, Map_set_set. reflexivity.
Qed.

(** One note without a sample in reach: the error, and nothing done. *)
Lemma triggerAttack_note_unresolved s note time velocity e :
  _findClosest (_buffers s) (toMidi note) = Throw e ->
  triggerAttack_note time velocity note s =
  (Throw (NoAvailableBuffers (toMidi note)), s).
Proof.
  intros Hfind.
  unfold triggerAttack_note, bind, this, lift. rewrite Hfind.
  unfold _findClosest in Hfind.
  now rewrite (_findClosest_while_error _ _ _ _ _ Hfind).
Qed.

Lemma sources_at_attacked_eq s midi source time velocity :
  sources_at (attacked s midi source time velocity) midi =
  sources_at s midi ++ [source].
Proof. unfold sources_at at 1, attacked. cbn. now rewrite Map_get_set_eq. Qed.

Lemma Map_get_attacked_ne s midi source time velocity key :
  key <> midi ->
  Map_get (_activeSources (attacked s midi source time velocity)) key =
  Map_get (_activeSources s) key.
Proof. intros Hne. unfold attacked. cbn. now apply Map_get_set_ne. Qed.

(** One note released: every source under its key is stopped at the
    computed time and the key is given a fresh empty array. *)
Lemma triggerRelease_note_active s note time source sources :
  Map_get (_activeSources s) (toMidi note) = Some (source :: sources) ->
  triggerRelease_note note time s =
  (Normal (toSeconds time),
   set_activeSources (fun m => Map_set m (toMidi note) [])
     (set_calls (fun cs => cs ++
        map (fun x => SourceStop x (toSeconds time)) (source :: sources)) s)).
Proof.
  intros Hget. unfold triggerRelease_note, bind at 1, this. rewrite Hget.
  cbn [length Nat.ltb Nat.leb]. unfold bind.
  rewrite (forEach_call (fun x => SourceStop x (toSeconds time))
             (source :: sources)).
  reflexivity.
Qed.

(** One note released with nothing under its key: nothing happens. *)
Lemma triggerRelease_note_idle s note time :
  sources_at s (toMidi note) = [] ->
  triggerRelease_note note time s = (Normal time, s).
Proof.
  unfold sources_at. intros Hnone.
  unfold triggerRelease_note, bind, this.
  destruct (Map_get (_activeSources s) (toMidi note)) as [[| x l] |];
    try reflexivity.
  discriminate.
Qed.

Lemma triggerRelease_note_nonempty s note time sources :
  Map_get (_activeSources s) (toMidi note) = Some sources ->
  sources <> [] ->
  triggerRelease_note note time s =
  (Normal (toSeconds time),
   set_activeSources (fun m => Map_set m (toMidi note) [])
     (set_calls (fun cs => cs ++
        map (fun x => SourceStop x (toSeconds time)) sources) s)).
Proof.
  intros Hget Hne. destruct sources as [| source sources]; [contradiction |].
  now apply triggerRelease_note_active.
Qed.

(** A single note attacked: the call returns exactly when the search
    finds a sample. *)
Lemma triggerAttack_One_Normal s note time velocity s1 :
  triggerAttack (One note) time velocity s = (Normal tt, s1) ->
  exists d buffer,
    _findClosest (_buffers s) (toMidi note) = Normal d /\
    _buffers s !! (toMidi note - d) = Some buffer /\
    s1 = attacked s (toMidi note) (attack_source s buffer d) time velocity.
Proof.
  unfold triggerAttack. cbn [toArray forEach]. unfold bind at 1.
  destruct (_findClosest_cases (_buffers s) (toMidi note)) as [[d Hd] | He].
  - destruct (_findClosest_stored _ _ _ Hd) as [buffer Hbuf].
    rewrite (triggerAttack_note_resolved _ _ _ _ _ _ Hd Hbuf).
    unfold ret. intros [= <-]. eauto.
  - rewrite (triggerAttack_note_unresolved _ _ _ _ _ He). discriminate.
Qed.

(** The [onended] callback on an entry that is empty leaves it empty. *)
Lemma onended_empty s midi source :
  Map_get (_activeSources s) midi = Some [] ->
  Map_get (_activeSources (snd (onended midi source s))) midi = Some [].
Proof.
  intros Hget. unfold onended, update, set_activeSources. cbn.
  rewrite Hget. cbn. apply Map_get_set_eq.
Qed.

(** C3: after a [triggerAttack] of the note [X] that returned, a
    [triggerRelease] of [X] returns and leaves the array under the key of
    [X] empty.  The release call does it by itself: it stops every source
    that was under the key, at the time it computes, and sets the key to a
    fresh empty array; no [onended] callback of a source is involved, and
    one that comes later finds the entry empty and leaves it so.  Other
    keys are not touched. *)
Theorem release_after_attack_clears s X t v t' s1 :
  triggerAttack (One X) t v s = (Normal tt, s1) ->
  exists s2,
    triggerRelease (One X) t' s1 = (Normal tt, s2) /\
    sources_at s1 (toMidi X) <> [] /\
    Map_get (_activeSources s2) (toMidi X) = Some [] /\
    calls s2 = calls s1 ++
      map (fun source => SourceStop source (toSeconds t'))
          (sources_at s1 (toMidi X)) /\
    (forall key, key <> toMidi X ->
       Map_get (_activeSources s2) key = Map_get (_activeSources s1) key) /\
    (forall source,
       Map_get (_activeSources (snd (onended (toMidi X) source s2))) (toMidi X)
       = Some []).
Proof.
  intros Hattack.
  apply triggerAttack_One_Normal in Hattack as (d & buffer & Hd & Hbuf & ->).
  set (source := attack_source s buffer d).
  set (s1 := attacked s (toMidi X) source t v).
  assert (Hget : Map_get (_activeSources s1) (toMidi X) =
                 Some (sources_at s (toMidi X) ++ [source])).
  { unfold s1, attacked. cbn. apply Map_get_set_eq. }
  assert (Hat : sources_at s1 (toMidi X) = sources_at s (toMidi X) ++ [source]).
  { apply sources_at_attacked_eq. }
  assert (Hne : sources_at s (toMidi X) ++ [source] <> []).
  { intros Hnil. apply app_eq_nil in Hnil as [_ Hnil]. discriminate. }
  eexists. split.
  { unfold triggerRelease. cbn [toArray triggerRelease_forEach].
    unfold bind at 1.
    rewrite (triggerRelease_note_nonempty _ _ _ _ Hget Hne). reflexivity. }
  rewrite Hat. split; [exact Hne |].
  assert (Hcleared : forall s0 : Sampler,
    Map_get (_activeSources
      (set_activeSources (fun m => Map_set m (toMidi X) []) s0)) (toMidi X)
    = Some []).
  { intros s0. unfold set_activeSources. cbn. apply Map_get_set_eq. }
  split; [apply Hcleared |].
  split; [reflexivity |].
  split.
  - intros key Hkey. unfold set_activeSources, set_calls. cbn.
    now apply Map_get_set_ne.
  - intros source'. apply onended_empty. apply Hcleared.
Qed.

(** C4: when the search finds a sample for the note [P], at interval
    [d], [triggerAttack] returns, and the source it builds (from the
    buffer stored at the resolved key [toMidi P - d], with the ratio of
    [d]) is started and appended to the array under the requested key
    [toMidi P]; the array under every other key, the resolved one
    included when it differs, is as before.  A later [triggerRelease] of
    [P] looks under the same key and stops that source. *)
Theorem attack_registers_under_requested_key s P t v d :
  _findClosest (_buffers s) (toMidi P) = Normal d ->
  exists buffer s1,
    _buffers s !! (toMidi P - d) = Some buffer /\
    triggerAttack (One P) t v s = (Normal tt, s1) /\
    Map_get (_activeSources s1) (toMidi P) =
      Some (sources_at s (toMidi P) ++ [attack_source s buffer d]) /\
    (forall key, key <> toMidi P ->
       Map_get (_activeSources s1) key = Map_get (_activeSources s) key) /\
    calls s1 = calls s ++ [SourceStart (attack_source s buffer d) t v] /\
    (forall t', exists s2,
       triggerRelease (One P) t' s1 = (Normal tt, s2) /\
       In (SourceStop (attack_source s buffer d) (toSeconds t')) (calls s2) /\
       Map_get (_activeSources s2) (toMidi P) = Some []).
Proof.
  intros Hd. destruct (_findClosest_stored _ _ _ Hd) as [buffer Hbuf].
  set (source := attack_source s buffer d).
  exists buffer, (attacked s (toMidi P) source t v).
  assert (Hget : Map_get (_activeSources (attacked s (toMidi P) source t v))
                   (toMidi P) = Some (sources_at s (toMidi P) ++ [source])).
  { unfold attacked. cbn. apply Map_get_set_eq. }
  split; [exact Hbuf |]. split.
  { unfold triggerAttack. cbn [toArray forEach]. unfold bind.
    now rewrite (triggerAttack_note_resolved _ _ _ _ _ _ Hd Hbuf). }
  split; [exact Hget |].
  split; [intros key Hkey; now apply Map_get_attacked_ne |].
  split; [reflexivity |].
  intros t'. eexists. split.
  { unfold triggerRelease. cbn [toArray triggerRelease_forEach].
    unfold bind at 1.
    rewrite (triggerRelease_note_nonempty _ _ _ _ Hget); [reflexivity |].
    intros Hnil. apply app_eq_nil in Hnil as [_ Hnil]. discriminate. }
  split.
  - unfold set_activeSources, set_calls. cbn.
    rewrite map_app. cbn. rewrite !in_app_iff. right. right. now left.
  - unfold set_activeSources. cbn. apply Map_get_set_eq.
Qed.

Lemma forEach_app {St A} (callback : A -> Method St unit) (l1 l2 : list A) s :
  forEach callback (l1 ++ l2) s =
  bind (forEach callback l1) (fun _ => forEach callback l2) s.
Proof.
  revert s. induction l1 as [| x l1 IH]; intros s; cbn [app forEach].
  - reflexivity.
  - unfold bind. destruct (callback x s) as [[[] | e] s'].
    + rewrite IH. reflexivity.
    + reflexivity.
Qed.

(** Notes that all resolve are all attacked: one source each, and the
    store is left alone. *)
Lemma triggerAttack_all_resolved (notes : list Frequency) time velocity s :
  Forall (fun note =>
    exists d, _findClosest (_buffers s) (toMidi note) = Normal d) notes ->
  exists s1,
    forEach (triggerAttack_note time velocity) notes s = (Normal tt, s1) /\
    _buffers s1 = _buffers s /\
    allocated s1 = (allocated s + length notes)%nat.
Proof.
  revert s. induction notes as [| note notes IH]; intros s Hall.
  - exists s. cbn. split; [reflexivity |]. split; [reflexivity | lia].
  - apply Forall_cons_1 in Hall as [[d Hd] Hall].
    destruct (_findClosest_stored _ _ _ Hd) as [buffer Hbuf].
    cbn [forEach]. unfold bind.
    rewrite (triggerAttack_note_resolved _ _ _ _ _ _ Hd Hbuf).
    destruct (IH (attacked s (toMidi note) (attack_source s buffer d)
                    time velocity) Hall) as (s1 & Hrun & Hb & Ha).
    exists s1. split; [exact Hrun |]. split; [exact Hb |].
    rewrite Ha. cbn. lia.
Qed.

(** C5 (amended): in a [triggerAttack] over a sequence of notes, the first
    note that has no sample in reach makes the call throw the error that
    names it, there and then.  The notes before it have been attacked, one
    source each, exactly as a call with those notes alone would have done;
    the notes after it are not looked at. *)
Theorem attack_stops_at_first_unresolved
    (before after : list Frequency) (bad : Frequency) t v s :
  Forall (fun note =>
    exists d, _findClosest (_buffers s) (toMidi note) = Normal d) before ->
  _findClosest (_buffers s) (toMidi bad)
    = Throw (NoAvailableBuffers (toMidi bad)) ->
  exists s1,
    triggerAttack (Many before) t v s = (Normal tt, s1) /\
    allocated s1 = (allocated s + length before)%nat /\
    triggerAttack (Many (before ++ bad :: after)) t v s =
      (Throw (NoAvailableBuffers (toMidi bad)), s1).
Proof.
  intros Hbefore Hbad.
  destruct (triggerAttack_all_resolved before t v s Hbefore)
    as (s1 & Hrun & Hbuf & Halloc).
  exists s1. unfold triggerAttack. cbn [toArray].
  split; [exact Hrun |]. split; [exact Halloc |].
  rewrite forEach_app. unfold bind at 1. rewrite Hrun.
  cbn [forEach]. unfold bind.
  rewrite <- Hbuf in Hbad.
  now rewrite (triggerAttack_note_unresolved _ _ _ _ _ Hbad).
Qed.

(** C6 (amended): [triggerAttackRelease] with a single note and a sequence
    of durations always throws and never schedules a release, but it
    checks the shape of its arguments after the attack.  When the note
    resolves, the source has been built, started and pushed under the
    note's key before the assertion throws.  When it does not, the error
    is that of the search and the instrument is as before. *)
Theorem attackRelease_scalar_note_array_duration
    s (note : Frequency) (durations : list Time) time velocity :
  (exists e s1,
     triggerAttackRelease (One note) (Many durations) time velocity s
       = (Throw e, s1) /\
     s1 = snd (triggerAttack (One note) (toSeconds time) velocity s) /\
     filter is_stop (calls s1) = filter is_stop (calls s)) /\
  (forall d, _findClosest (_buffers s) (toMidi note) = Normal d ->
     exists buffer,
       _buffers s !! (toMidi note - d) = Some buffer /\
       triggerAttackRelease (One note) (Many durations) time velocity s =
       (Throw (AssertionFailed "notes must be an array when duration is array"),
        attacked s (toMidi note) (attack_source s buffer d)
          (toSeconds time) velocity)) /\
  (forall e, _findClosest (_buffers s) (toMidi note) = Throw e ->
     triggerAttackRelease (One note) (Many durations) time velocity s =
     (Throw (NoAvailableBuffers (toMidi note)), s)).
Proof.
  assert (Hres : forall d buffer,
    _findClosest (_buffers s) (toMidi note) = Normal d ->
    _buffers s !! (toMidi note - d) = Some buffer ->
    triggerAttackRelease (One note) (Many durations) time velocity s =
    (Throw (AssertionFailed "notes must be an array when duration is array"),
     attacked s (toMidi note) (attack_source s buffer d)
       (toSeconds time) velocity) /\
    triggerAttack (One note) (toSeconds time) velocity s =
    (Normal tt, attacked s (toMidi note) (attack_source s buffer d)
       (toSeconds time) velocity)).
  { intros d buffer Hd Hbuf.
    unfold triggerAttackRelease, triggerAttack. cbn [toArray forEach isArray].
    unfold bind.
    rewrite (triggerAttack_note_resolved _ _ _ _ _ _ Hd Hbuf). cbn. auto. }
  assert (Hunres : forall e,
    _findClosest (_buffers s) (toMidi note) = Throw e ->
    triggerAttackRelease (One note) (Many durations) time velocity s =
    (Throw (NoAvailableBuffers (toMidi note)), s) /\
    triggerAttack (One note) (toSeconds time) velocity s =
    (Throw (NoAvailableBuffers (toMidi note)), s)).
  { intros e He.
    unfold triggerAttackRelease, triggerAttack. cbn [toArray forEach isArray].
    unfold bind.
    rewrite (triggerAttack_note_unresolved _ _ _ _ _ He). auto. }
  split; [| split].
  - destruct (_findClosest_cases (_buffers s) (toMidi note)) as [[d Hd] | He].
    + destruct (_findClosest_stored _ _ _ Hd) as [buffer Hbuf].
      destruct (Hres d buffer Hd Hbuf) as [Hrun Hatt].
      eexists _, _. split; [exact Hrun |]. rewrite Hatt. split; [reflexivity |].
      unfold attacked. cbn. rewrite filter_app. cbn. apply app_nil_r.
    + destruct (Hunres _ He) as [Hrun Hatt].
      eexists _, _. split; [exact Hrun |]. rewrite Hatt. auto.
  - intros d Hd. destruct (_findClosest_stored _ _ _ Hd) as [buffer Hbuf].
    exists buffer. split; [exact Hbuf |]. now apply Hres.
  - intros e He. now apply (Hunres e).
Qed.

(** ** Releasing everything *)

Lemma set_calls_set_calls f g (s : Sampler) :
  set_calls g (set_calls f s) = set_calls (fun cs => g (f cs)) s.
Proof. reflexivity. Qed.

Lemma releaseAll_while_drains computedTime sources s :
  releaseAll_while computedTime sources s =
  (Normal [],
   set_calls
     (fun cs => cs ++ map (fun x => SourceStop x computedTime) sources) s).
Proof.
  revert s. induction sources as [| source sources IH]; intros s.
  - cbn. unfold ret. now rewrite set_calls_nil.
  - cbn [releaseAll_while]. unfold bind, call, update. rewrite IH.
    f_equal. destruct s. unfold set_calls. cbn. now rewrite <- app_assoc.
Qed.

Lemma releaseAll_forEach_drains computedTime entries s :
  releaseAll_forEach computedTime entries s =
  (Normal (emptied entries),
   set_calls (fun cs => cs ++
     map (fun x => SourceStop x computedTime) (concat (map snd entries))) s).
Proof.
  revert s. induction entries as [| [midi sources] entries IH]; intros s.
  - cbn. unfold ret. now rewrite set_calls_nil.
  - cbn [releaseAll_forEach]. unfold bind.
    rewrite releaseAll_while_drains, IH. unfold ret. f_equal.
    destruct s. unfold set_calls. cbn.
    now rewrite map_app, app_assoc.
Qed.

Lemma Map_get_emptied entries key sources :
  Map_get (emptied entries) key = Some sources -> sources = [].
Proof.
  induction entries as [| [k v] entries IH]; cbn.
  - discriminate.
  - destruct (Z.eqb key k); [congruence | exact IH].
Qed.

Lemma Map_has_emptied (entries : list (Z * list ToneBufferSource)) key :
  Map_has (emptied entries) key = Map_has entries key.
Proof.
  unfold Map_has. induction entries as [| [k v] entries IH]; cbn.
  - reflexivity.
  - destruct (Z.eqb key k); [reflexivity | exact IH].
Qed.

(** C7: [releaseAll] returns, and afterwards every entry of the table,
    however many keys it has, holds an empty array (the keys stay, in
    their order); every source that was in the table has been stopped at
    the time computed from the argument, in the order of the table.  Each
    array is drained by shifting one source out and stopping it, again and
    again, until it is empty. *)
Theorem releaseAll_drains_every_entry s t :
  exists s',
    releaseAll t s = (Normal tt, s') /\
    _activeSources s' = emptied (_activeSources s) /\
    (forall key sources,
       Map_get (_activeSources s') key = Some sources -> sources = []) /\
    (forall key,
       Map_has (_activeSources s') key = Map_has (_activeSources s) key) /\
    calls s' = calls s ++
      map (fun source => SourceStop source (toSeconds t))
          (concat (map snd (_activeSources s))) /\
    (forall key sources source,
       In (key, sources) (_activeSources s) -> In source sources ->
       In (SourceStop source (toSeconds t)) (calls s')) /\
    (forall source sources s0,
       releaseAll_while (toSeconds t) (source :: sources) s0 =
       releaseAll_while (toSeconds t) sources
         (set_calls (fun cs => cs ++ [SourceStop source (toSeconds t)]) s0)) /\
    (forall sources s0,
       fst (releaseAll_while (toSeconds t) sources s0) = Normal []).
Proof.
  eexists. split.
  { unfold releaseAll, bind, this.
    rewrite releaseAll_forEach_drains. reflexivity. }
  cbn. split; [reflexivity |].
  split; [intros key sources; apply Map_get_emptied |].
  split; [intros key; apply Map_has_emptied |].
  split; [reflexivity |].
  split.
  - intros key sources source Hentry Hsource.
    apply in_or_app. right.
    apply (in_map (fun x => SourceStop x (toSeconds t))).
    apply in_concat. exists sources. split; [| exact Hsource].
    change sources with (snd (key, sources)). now apply in_map.
  - split.
    + intros source sources s0. reflexivity.
    + intros sources s0. now rewrite releaseAll_while_drains.
Qed.

(** ** Disposal *)

Lemma dispose_forEach entries s :
  forEach (fun entry : Z * list ToneBufferSource =>
             forEach (fun source => call (SourceDispose source)) (snd entry))
          entries s =
  (Normal tt,
   set_calls (fun cs => cs ++ map SourceDispose (concat (map snd entries))) s).
Proof.
  revert s. induction entries as [| [midi sources] entries IH]; intros s.
  - cbn. unfold ret. now rewrite set_calls_nil.
  - cbn [forEach]. unfold bind. cbn [snd].
    rewrite (forEach_call SourceDispose sources), IH. f_equal.
    destruct s. unfold set_calls. cbn. now rewrite map_app, app_assoc.
Qed.

Lemma dispose_disposed s : dispose s = (Normal tt, disposed s).
Proof.
  unfold dispose, bind at 1 2 3 4, call, update, this.
  unfold bind. rewrite dispose_forEach.
  unfold disposed, set_activeSources, set_buffers, set_calls. cbn.
  f_equal. f_equal. rewrite <- !app_assoc. reflexivity.
Qed.

(** With nothing in the table, a release does nothing. *)
Lemma triggerRelease_forEach_idle notes time s :
  _activeSources s = [] ->
  triggerRelease_forEach notes time s = (Normal tt, s).
Proof.
  intros Hempty. revert time. induction notes as [| note notes IH]; intros time.
  - reflexivity.
  - cbn [triggerRelease_forEach]. unfold bind.
    rewrite triggerRelease_note_idle; [apply IH |].
    unfold sources_at. now rewrite Hempty.
Qed.

(** A store that holds nothing fails every search. *)
Lemma _findClosest_empty_store buffers midi :
  (forall key, buffers_has buffers key = false) ->
  _findClosest buffers midi = Throw (NoAvailableBuffers midi).
Proof.
  intros Hnone. destruct (_findClosest_cases buffers midi) as [[d Hd] | He].
  - destruct (_findClosest_stored _ _ _ Hd) as [buffer Hbuf].
    assert (Hhas : buffers_has buffers (midi - d) = true)
      by (apply buffers_has_true; eauto).
    rewrite Hnone in Hhas. discriminate.
  - exact He.
Qed.

(** C8 (amended): [dispose()] returns and leaves the table of active
    sources empty, having disposed the store and every source; no source
    is built by it.  No trigger operation checks for disposal afterwards.
    [triggerRelease], for any notes, returns without an error and does
    nothing; so do [triggerAttack] and [triggerAttackRelease] on an empty
    sequence of notes.  On a sequence with a first note, when the disposed
    store holds no sample, [triggerAttack] and [triggerAttackRelease]
    throw the ordinary error of the search for that note.  In each of
    these cases the state is the disposed one, unchanged: no source is
    built, started or registered. *)
Theorem no_disposal_check_after_dispose s :
  exists s',
    dispose s = (Normal tt, s') /\
    _activeSources s' = [] /\
    _buffers s' = buffers_dispose (_buffers s) /\
    allocated s' = allocated s /\
    (forall notes time, triggerRelease notes time s' = (Normal tt, s')) /\
    (forall time velocity,
       triggerAttack (Many []) time velocity s' = (Normal tt, s')) /\
    (forall duration time velocity,
       triggerAttackRelease (Many []) duration time velocity s'
       = (Normal tt, s')) /\
    ((forall key, buffers_has (buffers_dispose (_buffers s)) key = false) ->
     forall notes note rest time velocity,
       toArray notes = note :: rest ->
       triggerAttack notes time velocity s'
         = (Throw (NoAvailableBuffers (toMidi note)), s') /\
       forall duration,
         triggerAttackRelease notes duration time velocity s'
         = (Throw (NoAvailableBuffers (toMidi note)), s')).
Proof.
  exists (disposed s). split; [apply dispose_disposed |].
  split; [reflexivity |]. split; [reflexivity |]. split; [reflexivity |].
  split.
  { intros notes time. unfold triggerRelease.
    now apply triggerRelease_forEach_idle. }
  split; [reflexivity |].
  split.
  { intros [d | durations] time velocity.
    - reflexivity.
    - reflexivity. }
  intros Hnone notes note rest time velocity Hnotes.
  assert (Hattack : forall time',
    triggerAttack notes time' velocity (disposed s)
    = (Throw (NoAvailableBuffers (toMidi note)), disposed s)).
  { intros time'. unfold triggerAttack. rewrite Hnotes. cbn [forEach].
    unfold bind.
    rewrite (triggerAttack_note_unresolved _ _ _ _
               (NoAvailableBuffers (toMidi note))); [reflexivity |].
    now apply _findClosest_empty_store. }
  split; [apply Hattack |].
  intros duration. unfold triggerAttackRelease, bind at 1.
  now rewrite Hattack.
Qed.

(** C10: [triggerAttack] and [triggerRelease] over an empty sequence of
    notes return without an error and leave every field of the instrument
    as it was: nothing is built, started or stopped. *)
Theorem trigger_empty_sequence_is_noop s time velocity :
  triggerAttack (Many []) time velocity s = (Normal tt, s) /\
  triggerRelease (Many []) time s = (Normal tt, s).
Proof. split; reflexivity. Qed.

End Properties.

(** ** The equal-tempered ratio *)

Section PlaybackRatio.

Local Open Scope R_scope.

Lemma ln_2_pos : 0 < ln 2.
Proof. rewrite <- ln_1. apply ln_increasing; lra. Qed.

Lemma Rpower_2_eq_1 x : Rpower 2 x = 1 <-> x = 0.
Proof.
  unfold Rpower. split.
  - intros Hexp. rewrite <- exp_0 in Hexp. apply exp_inv in Hexp.
    pose proof ln_2_pos as Hln.
    apply Rmult_integral in Hexp as [Hx | Hl]; [exact Hx | lra].
  - intros ->. rewrite Rmult_0_l. apply exp_0.
Qed.

(** C9: over the real numbers the ratio 2^(i/12) of an integer interval
    [i] is positive, is 1 exactly when [i] is 0, and the ratios of [i] and
    of [-i] multiply to 1. *)
Theorem playbackRatio_positive_unit_inverse (i : Z) :
  0 < playbackRatio i /\
  (playbackRatio i = 1 <-> i = 0%Z) /\
  playbackRatio i * playbackRatio (- i) = 1.
Proof.
  unfold playbackRatio. split; [| split].
  - unfold Rpower. apply exp_pos.
  - rewrite Rpower_2_eq_1. split.
    + intros Hq. apply eq_IZR. lra.
    + intros ->. lra.
  - rewrite <- Rpower_plus, opp_IZR.
    replace (IZR i / 12 + - IZR i / 12) with 0 by lra.
    apply Rpower_O. lra.
Qed.

End PlaybackRatio.

(** ** The class run on the small instrument *)

Section Demo.

#[local] Existing Instance demo.

(** C3 on E3 and C3 only: D3 is two semitones from both, E3 is taken. *)
Lemma findClosest_nearest_upper_first_witness :
  _findClosest store_60_64 62 = Normal (-2) /\
  buffers_has store_60_64 64 = true /\
  (forall S, buffers_has store_60_64 S = true ->
     Z.abs (62 - S) = Z.abs (62 - 64) -> S <= 64).
Proof.
  assert (Hrun : _findClosest store_60_64 62 = Normal (-2)) by reflexivity.
  split; [exact Hrun |].
  destruct (findClosest_nearest_upper_first (H := demo)
              store_60_64 62 (-2) Hrun)
    as (Hstored & _ & Htie & _).
  split; [exact Hstored | exact Htie].
Defined.

(** The only sample is exactly 96 semitones above the request, no farther,
    and the search throws. *)
Lemma findClosest_at_radius_96_throws :
  (forall S, buffers_has store_96 S = true -> Z.abs (0 - S) = 96) /\
  _findClosest store_96 0 = Throw (NoAvailableBuffers 0) /\
  ~ ((exists e, _findClosest store_96 0 = Throw e) <->
     (forall S, buffers_has store_96 S = true -> 96 < Z.abs (0 - S))).
Proof.
  assert (Honly : forall S,
    buffers_has store_96 S = true -> Z.abs (0 - S) = 96).
  { intros S HS.
    apply (@buffers_has_true demo) in HS as [buffer Hbuf].
    unfold store_96 in Hbuf. apply lookup_singleton_Some in Hbuf as [<- _].
    reflexivity. }
  split; [exact Honly |]. split; [reflexivity |].
  intros [Hfar _].
  assert (Hthrows : exists e, _findClosest store_96 0 = Throw e)
    by (eexists; reflexivity).
  specialize (Hfar Hthrows 96 eq_refl). cbn in Hfar. lia.
Qed.

Lemma release_after_attack_clears_witness :
  exists s1 s2,
    triggerAttack (One 62) 0 1 (demo_sampler store_60_64) = (Normal tt, s1) /\
    triggerRelease (One 62) 5 s1 = (Normal tt, s2) /\
    Map_get (_activeSources s2) 62 = Some [].
Proof.
  eexists.
  destruct (release_after_attack_clears (H := demo) (demo_sampler store_60_64)
              62 0 1 5 _ eq_refl) as (s2 & Hrelease & _ & Hempty & _).
  exists s2. split; [reflexivity |]. split; [exact Hrelease | exact Hempty].
Defined.

Lemma attack_registers_under_requested_key_witness :
  _findClosest store_60_64 62 = Normal (-2) /\
  exists s1,
    triggerAttack (One 62) 0 1 (demo_sampler store_60_64) = (Normal tt, s1) /\
    (exists source, Map_get (_activeSources s1) 62 = Some [source]) /\
    Map_get (_activeSources s1) 64 = None.
Proof.
  assert (Hrun : _findClosest store_60_64 62 = Normal (-2)) by reflexivity.
  split; [exact Hrun |].
  destruct (attack_registers_under_requested_key (H := demo)
              (demo_sampler store_60_64)
              62 0 1 (-2) Hrun)
    as (buffer & s1 & _ & Hattack & Hkey & Hother & _).
  exists s1. split; [exact Hattack |]. split.
  - eexists. exact Hkey.
  - rewrite Hother; [reflexivity | discriminate].
Defined.

(** [200] has no sample in reach; [60], which comes after it and has one,
    gets no source. *)
Lemma attack_abandons_notes_after_failure :
  let r := triggerAttack (Many [200; 60]) 0 1 (demo_sampler store_60) in
  _findClosest store_60 200 = Throw (NoAvailableBuffers 200) /\
  _findClosest store_60 60 = Normal 0 /\
  fst r = Throw (NoAvailableBuffers 200) /\
  Map_get (_activeSources (snd r)) 60 = None /\
  calls (snd r) = [] /\
  allocated (snd r) = 0%nat.
Proof. cbv zeta. repeat split; reflexivity. Qed.

Lemma attack_stops_at_first_unresolved_witness :
  exists s1,
    triggerAttack (Many [60; 61]) 0 1 (demo_sampler store_60)
      = (Normal tt, s1) /\
    allocated s1 = 2%nat /\
    triggerAttack (Many [60; 61; 200; 62]) 0 1 (demo_sampler store_60)
      = (Throw (NoAvailableBuffers 200), s1).
Proof.
  apply (attack_stops_at_first_unresolved (H := demo) [60; 61] [62] 200 0 1
           (demo_sampler store_60)).
  - repeat constructor.
    + exists 0. reflexivity.
    + exists 1. reflexivity.
  - reflexivity.
Defined.

(** A single note with an array of durations: the call throws, and the
    source of the note is in the table. *)
Lemma attackRelease_registers_before_assertion :
  let s := demo_sampler store_60 in
  let r := triggerAttackRelease (One 60) (Many [1]) 0 1 s in
  fst r =
    Throw (AssertionFailed "notes must be an array when duration is array") /\
  _activeSources (snd r) <> _activeSources s /\
  Map_get (_activeSources (snd r)) 60 = Some [attack_source s 0%nat 0] /\
  calls (snd r) = [SourceStart (attack_source s 0%nat 0) 0 1].
Proof.
  cbv zeta. split; [reflexivity |]. split; [| split; reflexivity].
  vm_compute. discriminate.
Qed.

Lemma attackRelease_scalar_note_array_duration_witness :
  _findClosest store_60_64 62 = Normal (-2) /\
  exists s1,
    triggerAttackRelease (One 62) (Many [1; 2]) 0 1 (demo_sampler store_60_64)
    = (Throw (AssertionFailed "notes must be an array when duration is array"),
       s1) /\
    sources_at s1 62 <> [].
Proof.
  assert (Hrun : _findClosest store_60_64 62 = Normal (-2)) by reflexivity.
  split; [exact Hrun |].
  destruct (attackRelease_scalar_note_array_duration (H := demo)
              (demo_sampler store_60_64) 62 [1; 2] 0 1) as (_ & Hres & _).
  destruct (Hres (-2) Hrun) as (buffer & _ & Hthrow).
  eexists. split; [exact Hthrow |].
  rewrite (@sources_at_attacked_eq demo). intros Hnil.
  apply app_eq_nil in Hnil as [_ Hnil]. discriminate.
Defined.

(** A note is attacked, the instrument is disposed, the note is released:
    the release returns. *)
Lemma release_after_dispose_returns :
  let r := bind (triggerAttack (One 60) 0 1)
             (fun _ => bind dispose (fun _ => triggerRelease (One 60) 2))
             (demo_sampler store_60) in
  fst r = Normal tt /\ ~ (exists e, fst r = Throw e).
Proof.
  cbv zeta. split; [reflexivity |]. intros [e He]. discriminate.
Qed.

Lemma no_disposal_check_after_dispose_witness :
  exists s',
    dispose (demo_sampler store_60) = (Normal tt, s') /\
    triggerRelease (One 60) 2 s' = (Normal tt, s') /\
    triggerAttack (One 60) 2 1 s' = (Throw (NoAvailableBuffers 60), s').
Proof.
  destruct (no_disposal_check_after_dispose (H := demo) (demo_sampler store_60))
    as (s' & Hdispose & _ & _ & _ & Hrelease & _ & _ & Hattack).
  exists s'. split; [exact Hdispose |]. split; [apply Hrelease |].
  apply (Hattack (fun key => eq_refl) (One 60) 60 [] 2 1 eq_refl).
Defined.

End Demo.

(** * More of the class *)

Section MoreOfTheSearch.

Context `{Collaborators}.

(** The radius of a successful search: under [MAX_INTERVAL], nothing
    stored nearer, and a key stored at that distance. *)
Lemma _findClosest_radius buffers K d :
  _findClosest buffers K = Normal d ->
  0 <= Z.abs d < MAX_INTERVAL /\
  (forall j, 0 <= j < Z.abs d ->
     buffers_has buffers (K + j) = false /\
     buffers_has buffers (K - j) = false) /\
  (buffers_has buffers (K + Z.abs d) = true \/
   buffers_has buffers (K - Z.abs d) = true).
Proof.
  unfold _findClosest. intros Hrun.
  apply _findClosest_while_Normal in Hrun as (r & Hr & Hnone & Hfound).
  change (Z.of_nat (Z.to_nat MAX_INTERVAL)) with MAX_INTERVAL in Hr.
  assert (Habs : Z.abs d = r)
    by (destruct Hfound as [[_ ->] | (_ & _ & ->)]; lia).
  rewrite Habs. split; [lia |]. split; [exact Hnone |].
  destruct Hfound as [[Ha _] | (_ & Hb & _)]; auto.
Qed.

(** A requested key that is stored is found at interval 0, and interval 0
    is returned for no other key. *)
Theorem findClosest_zero_iff_stored buffers K :
  _findClosest buffers K = Normal 0 <-> buffers_has buffers K = true.
Proof.
  split.
  - intros Hrun. apply _findClosest_radius in Hrun as (_ & _ & Hfound).
    cbn in Hfound. rewrite Z.add_0_r, Z.sub_0_r in Hfound. tauto.
  - intros Hstored. unfold _findClosest.
    change (Z.to_nat MAX_INTERVAL) with (S (Z.to_nat (MAX_INTERVAL - 1))).
    cbn [_findClosest_while]. rewrite Z.add_0_r, Hstored. reflexivity.
Qed.

(** A store with more samples never turns a search that succeeds into one
    that fails, and never gives a sample farther away. *)
Theorem findClosest_more_samples_not_farther buffers buffers' K d :
  (forall key, buffers_has buffers key = true ->
               buffers_has buffers' key = true) ->
  _findClosest buffers K = Normal d ->
  exists d', _findClosest buffers' K = Normal d' /\ Z.abs d' <= Z.abs d.
Proof.
  intros Hmore Hrun.
  apply _findClosest_radius in Hrun as (Hr & _ & Hfound).
  assert (Hfound' : buffers_has buffers' (K + Z.abs d) = true \/
                    buffers_has buffers' (K - Z.abs d) = true)
    by (destruct Hfound; auto).
  destruct (_findClosest_cases buffers' K) as [[d' Hd'] | Hthrow].
  - exists d'. split; [exact Hd' |].
    apply _findClosest_radius in Hd' as (_ & Hnone' & _).
    destruct (Z.le_gt_cases (Z.abs d') (Z.abs d)) as [| Hgt]; [easy |].
    destruct (Hnone' (Z.abs d)) as [Ha Hb]; [lia |].
    destruct Hfound'; congruence.
  - exfalso. unfold _findClosest in Hthrow.
    assert (Hex : exists e,
      _findClosest_while (Z.to_nat MAX_INTERVAL) buffers' K 0 = Throw e)
      by eauto.
    rewrite _findClosest_while_Throw in Hex.
    destruct (Hex (Z.abs d)) as [Ha Hb].
    { change (Z.of_nat (Z.to_nat MAX_INTERVAL)) with MAX_INTERVAL. lia. }
    destruct Hfound'; congruence.
Qed.

End MoreOfTheSearch.

Section MoreOfTheAttack.

Context `{Collaborators}.

(** A property of two states that holds from a state to itself and
    through two steps holds through a [forEach]. *)
Lemma forEach_preserves {A} (P : Sampler -> Sampler -> Prop)
    (callback : A -> Method Sampler unit) :
  (forall s, P s s) ->
  (forall s1 s2 s3, P s1 s2 -> P s2 s3 -> P s1 s3) ->
  (forall x s, P s (snd (callback x s))) ->
  forall array s, P s (snd (forEach callback array s)).
Proof.
  intros Hrefl Htrans Hstep array.
  induction array as [| x array IH]; intros s; cbn [forEach].
  - apply Hrefl.
  - unfold bind. specialize (Hstep x s).
    destruct (callback x s) as [[[] | e] s1]; cbn in *.
    + eapply Htrans; [exact Hstep | apply IH].
    + exact Hstep.
Qed.

Lemma sources_at_attacked_ne s midi source time velocity key :
  key <> midi ->
  sources_at (attacked s midi source time velocity) key = sources_at s key.
Proof.
  intros Hne. unfold sources_at. now rewrite Map_get_attacked_ne.
Qed.

(** One note of an attack, whatever its outcome. *)
Lemma triggerAttack_note_outcome s note time velocity :
  triggerAttack_note time velocity note s
    = (Throw (NoAvailableBuffers (toMidi note)), s) \/
  exists d buffer,
    _findClosest (_buffers s) (toMidi note) = Normal d /\
    _buffers s !! (toMidi note - d) = Some buffer /\
    triggerAttack_note time velocity note s =
    (Normal tt,
     attacked s (toMidi note) (attack_source s buffer d) time velocity).
Proof.
  destruct (_findClosest_cases (_buffers s) (toMidi note)) as [[d Hd] | He].
  - right. destruct (_findClosest_stored _ _ _ Hd) as [buffer Hbuf].
    exists d, buffer. split; [exact Hd |]. split; [exact Hbuf |].
    now apply triggerAttack_note_resolved.
  - left. now apply (triggerAttack_note_unresolved _ _ _ _ _ He).
Qed.

(** [triggerAttack], whether it returns or throws, leaves the store and
    the options of the instrument alone, makes no call but [start]s, one
    for each source it builds, and takes no source out of the table: the
    array under every key keeps what it had, in front. *)
Theorem triggerAttack_only_starts_and_appends notes time velocity s :
  let s' := snd (triggerAttack notes time velocity s) in
  _buffers s' = _buffers s /\
  attack s' = attack s /\ release s' = release s /\ curve s' = curve s /\
  (exists new,
     calls s' = calls s ++ new /\
     Forall (fun c => is_start c = true) new /\
     allocated s' = (allocated s + length new)%nat) /\
  (forall key, exists added,
     sources_at s' key = sources_at s key ++ added).
Proof.
  cbv zeta. unfold triggerAttack.
  apply (forEach_preserves (fun s s' =>
    _buffers s' = _buffers s /\
    attack s' = attack s /\ release s' = release s /\ curve s' = curve s /\
    (exists new,
       calls s' = calls s ++ new /\
       Forall (fun c => is_start c = true) new /\
       allocated s' = (allocated s + length new)%nat) /\
    (forall key, exists added,
       sources_at s' key = sources_at s key ++ added))).
  - intros s0. repeat (split; [reflexivity |]). split.
    + exists []. rewrite app_nil_r. split; [reflexivity |].
      split; [constructor | cbn; lia].
    + intros key. exists []. now rewrite app_nil_r.
  - intros s1 s2 s3 (Hb1 & Ha1 & Hr1 & Hc1 & (new1 & Hn1 & Hf1 & Hl1) & Ht1)
                    (Hb2 & Ha2 & Hr2 & Hc2 & (new2 & Hn2 & Hf2 & Hl2) & Ht2).
    split; [congruence |]. split; [congruence |].
    split; [congruence |]. split; [congruence |]. split.
    + exists (new1 ++ new2). rewrite Hn2, Hn1, <- app_assoc.
      split; [reflexivity |]. split; [now apply Forall_app |].
      rewrite Hl2, Hl1, length_app. lia.
    + intros key. destruct (Ht1 key) as [added1 He1].
      destruct (Ht2 key) as [added2 He2].
      exists (added1 ++ added2). now rewrite He2, He1, <- app_assoc.
  - intros note s0.
    destruct (triggerAttack_note_outcome s0 note time velocity)
      as [-> | (d & buffer & _ & _ & ->)]; cbn [snd].
    + repeat (split; [reflexivity |]). split.
      * exists []. rewrite app_nil_r. split; [reflexivity |].
        split; [constructor | cbn; lia].
      * intros key. exists []. now rewrite app_nil_r.
    + repeat (split; [reflexivity |]). split.
      * eexists. split; [reflexivity |].
        split; [repeat constructor | cbn; lia].
      * intros key. destruct (Z.eq_dec key (toMidi note)) as [-> | Hne].
        -- eexists. apply sources_at_attacked_eq.
        -- exists []. rewrite app_nil_r. now apply sources_at_attacked_ne.
Qed.

(** When every note of the sequence has a sample in reach, [triggerAttack]
    returns and the array under a key has grown by one source for each
    note of the sequence that has this key: attacks of one pitch stack. *)
Theorem triggerAttack_stacks_sources
    (notes : list Frequency) time velocity s :
  Forall (fun note =>
    exists d, _findClosest (_buffers s) (toMidi note) = Normal d) notes ->
  exists s',
    triggerAttack (Many notes) time velocity s = (Normal tt, s') /\
    forall key,
      length (sources_at s' key) =
      (length (sources_at s key) +
       length (List.filter (fun note => Z.eqb (toMidi note) key) notes))%nat.
Proof.
  unfold triggerAttack. cbn [toArray]. revert s.
  induction notes as [| note notes IH]; intros s Hall.
  - exists s. split; [reflexivity |]. intros key. cbn. lia.
  - apply Forall_cons_1 in Hall as [[d Hd] Hall].
    destruct (_findClosest_stored _ _ _ Hd) as [buffer Hbuf].
    cbn [forEach]. unfold bind.
    rewrite (triggerAttack_note_resolved _ _ _ _ _ _ Hd Hbuf).
    destruct (IH (attacked s (toMidi note) (attack_source s buffer d)
                    time velocity) Hall) as (s' & Hrun & Hcount).
    exists s'. split; [exact Hrun |]. intros key. rewrite Hcount.
    cbn [List.filter].
    destruct (Z.eqb_spec (toMidi note) key) as [<- | Hne].
    + rewrite sources_at_attacked_eq, length_app. cbn. lia.
    + rewrite sources_at_attacked_ne by congruence. lia.
Qed.

End MoreOfTheAttack.

Section MoreOfTheRelease.

Context `{Collaborators}.

(** The state after the sources under [midi] were stopped at [time] and
    the key was given an empty array. *)
Lemma sources_at_released_eq (s : Sampler) midi f :
  sources_at
    (set_activeSources (fun m => Map_set m midi []) (set_calls f s)) midi = [].
Proof.
  unfold sources_at, set_activeSources, set_calls. cbn.
  now rewrite Map_get_set_eq.
Qed.

Lemma Map_get_released_ne (s : Sampler) midi f key :
  key <> midi ->
  Map_get (_activeSources
    (set_activeSources (fun m => Map_set m midi []) (set_calls f s))) key
  = Map_get (_activeSources s) key.
Proof.
  intros Hne. unfold set_activeSources, set_calls. cbn.
  now apply Map_get_set_ne.
Qed.

(** One note of a release, whatever the table holds. *)
Lemma triggerRelease_note_outcome s note time :
  (sources_at s (toMidi note) = [] /\
   triggerRelease_note note time s = (Normal time, s)) \/
  (sources_at s (toMidi note) <> [] /\
   triggerRelease_note note time s =
   (Normal (toSeconds time),
    set_activeSources (fun m => Map_set m (toMidi note) [])
      (set_calls (fun cs => cs ++
         map (fun x => SourceStop x (toSeconds time))
             (sources_at s (toMidi note))) s))).
Proof.
  destruct (sources_at s (toMidi note)) as [| source sources] eqn:Hat.
  - left. split; [reflexivity |]. now apply triggerRelease_note_idle.
  - right. split; [discriminate |].
    apply triggerRelease_note_active.
    unfold sources_at in Hat.
    destruct (Map_get (_activeSources s) (toMidi note)) as [l |];
      cbn in Hat; [now subst l | discriminate].
Qed.

(** All that a release over a sequence of notes does. *)
Lemma triggerRelease_forEach_outcome notes time s :
  exists s' new,
    triggerRelease_forEach notes time s = (Normal tt, s') /\
    (_buffers s' = _buffers s /\ allocated s' = allocated s /\
     attack s' = attack s /\ release s' = release s /\ curve s' = curve s) /\
    calls s' = calls s ++ new /\
    (forall key,
       sources_at s' key = [] \/
       Map_get (_activeSources s') key = Map_get (_activeSources s) key) /\
    (forall note, In note notes -> sources_at s' (toMidi note) = []) /\
    (forall key, (forall note, In note notes -> toMidi note <> key) ->
       Map_get (_activeSources s') key = Map_get (_activeSources s) key) /\
    (forall c, In c new ->
       exists source n note,
         c = SourceStop source (Nat.iter n toSeconds time) /\
         (1 <= n <= length notes)%nat /\
         In note notes /\ In source (sources_at s (toMidi note))) /\
    (forall note source,
       In note notes -> In source (sources_at s (toMidi note)) ->
       exists time', In (SourceStop source time') new).
Proof.
  revert time s. induction notes as [| note notes IH]; intros time s.
  - exists s, []. cbn. rewrite app_nil_r.
    split; [reflexivity |]. split; [tauto |]. split; [reflexivity |].
    split; [auto |]. split; [intros note []|]. split; [auto |].
    split; [intros c [] | intros note source []].
  - cbn [triggerRelease_forEach]. unfold bind.
    destruct (triggerRelease_note_outcome s note time)
      as [[Hidle ->] | [Hactive ->]].
    + destruct (IH time s)
        as (s' & new & Hrun & Hframe & Hcalls & Hkeys & Hempty & Hother
            & Hstops & Hall).
      exists s', new. split; [exact Hrun |]. split; [exact Hframe |].
      split; [exact Hcalls |]. split; [exact Hkeys |].
      split.
      { intros note' [<- | Hin]; [| now apply Hempty].
        destruct (Hkeys (toMidi note)) as [Hnil | Hsame]; [exact Hnil |].
        unfold sources_at in *. now rewrite Hsame. }
      split.
      { intros key Hkey. apply Hother. intros n Hn. apply Hkey. now right. }
      split.
      * intros c Hc.
        destruct (Hstops c Hc) as (source & n & note' & -> & Hn & Hin & Hsrc).
        exists source, n, note'. split; [reflexivity |].
        split; [cbn; lia |]. split; [now right | exact Hsrc].
      * intros note' source [<- | Hin] Hsrc.
        -- rewrite Hidle in Hsrc. contradiction.
        -- eapply Hall; eassumption.
    + set (sources := sources_at s (toMidi note)) in *.
      set (s1 := set_activeSources _ _).
      assert (Hat1 : forall key, key <> toMidi note ->
                sources_at s1 key = sources_at s key).
      { intros key Hne. unfold sources_at, s1.
        now rewrite Map_get_released_ne. }
      assert (Hempty1 : sources_at s1 (toMidi note) = [])
        by apply sources_at_released_eq.
      destruct (IH (toSeconds time) s1)
        as (s' & new & Hrun & Hframe & Hcalls & Hkeys & Hempty & Hother
            & Hstops & Hall).
      assert (Hnote : sources_at s' (toMidi note) = []).
      { destruct (Hkeys (toMidi note)) as [Hnil | Hsame]; [exact Hnil |].
        unfold sources_at in *. now rewrite Hsame. }
      exists s', (map (fun x => SourceStop x (toSeconds time)) sources ++ new).
      split; [exact Hrun |]. split; [exact Hframe |].
      split; [rewrite Hcalls; unfold s1, set_activeSources, set_calls; cbn;
              now rewrite app_assoc |].
      split.
      { intros key. destruct (Z.eq_dec key (toMidi note)) as [-> | Hne].
        - now left.
        - destruct (Hkeys key) as [Hnil | Hsame]; [now left | right].
          rewrite Hsame. unfold s1. now apply Map_get_released_ne. }
      split.
      { intros note' [<- | Hin]; [exact Hnote | now apply Hempty]. }
      split.
      { intros key Hkey. rewrite Hother.
        - unfold s1. apply Map_get_released_ne.
          intros ->. exact (Hkey note (or_introl eq_refl) eq_refl).
        - intros n Hn. apply Hkey. now right. }
      split.
      * intros c Hc. apply in_app_or in Hc as [Hc | Hc].
        -- apply in_map_iff in Hc as (source & <- & Hsrc).
           exists source, 1%nat, note. split; [reflexivity |].
           split; [cbn; lia |]. split; [now left | exact Hsrc].
        -- destruct (Hstops c Hc)
             as (source & n & note' & -> & Hn & Hin & Hsrc).
           exists source, (S n), note'.
           split; [now rewrite Nat.iter_succ_r |].
           split; [cbn; lia |]. split; [now right |].
           destruct (Z.eq_dec (toMidi note') (toMidi note)) as [Heq | Hne].
           ++ rewrite Heq, Hempty1 in Hsrc. contradiction.
           ++ now rewrite <- (Hat1 _ Hne).
      * intros note' source Hin Hsrc.
        destruct (Z.eq_dec (toMidi note') (toMidi note)) as [Heq | Hne].
        -- exists (toSeconds time). apply in_or_app. left.
           apply (in_map (fun x => SourceStop x (toSeconds time))).
           now rewrite Heq in Hsrc.
        -- destruct Hin as [<- | Hin]; [contradiction |].
           rewrite <- (Hat1 _ Hne) in Hsrc.
           destruct (Hall note' source Hin Hsrc) as [time' Hstop].
           exists time'. apply in_or_app. now right.
Qed.

(** [triggerRelease] never throws.  It leaves the store, the options and
    the count of built sources alone, and the entry of every key that is
    not the key of one of the notes.  After it the array under the key of
    each note is empty.  The calls it makes are [stop]s, on sources that
    were under the key of one of the notes, and every such source is
    stopped. *)
Theorem triggerRelease_stops_what_is_registered notes time s :
  exists s' new,
    triggerRelease notes time s = (Normal tt, s') /\
    (_buffers s' = _buffers s /\ allocated s' = allocated s /\
     attack s' = attack s /\ release s' = release s /\ curve s' = curve s) /\
    calls s' = calls s ++ new /\
    (forall note, In note (toArray notes) ->
       sources_at s' (toMidi note) = []) /\
    (forall key, (forall note, In note (toArray notes) -> toMidi note <> key) ->
       Map_get (_activeSources s') key = Map_get (_activeSources s) key) /\
    (forall c, In c new ->
       exists source time' note,
         c = SourceStop source time' /\
         In note (toArray notes) /\
         In source (sources_at s (toMidi note))) /\
    (forall note source,
       In note (toArray notes) -> In source (sources_at s (toMidi note)) ->
       exists time', In (SourceStop source time') new).
Proof.
  unfold triggerRelease.
  destruct (triggerRelease_forEach_outcome (toArray notes) time s)
    as (s' & new & Hrun & Hframe & Hcalls & _ & Hempty & Hother
        & Hstops & Hall).
  exists s', new. split; [exact Hrun |]. split; [exact Hframe |].
  split; [exact Hcalls |]. split; [exact Hempty |].
  split; [exact Hother |]. split; [| exact Hall].
  intros c Hc.
  destruct (Hstops c Hc) as (source & n & note & -> & _ & Hin & Hsrc).
  eauto 6.
Qed.

Lemma triggerRelease_calls_outcome notes time s c :
  In c (calls (snd (triggerRelease notes time s))) ->
  In c (calls s) \/
  exists source n,
    c = SourceStop source (Nat.iter n toSeconds time) /\
    (1 <= n <= length (toArray notes))%nat.
Proof.
  unfold triggerRelease.
  destruct (triggerRelease_forEach_outcome (toArray notes) time s)
    as (s' & new & Hrun & _ & Hcalls & _ & _ & _ & Hstops & _).
  rewrite Hrun. cbn [snd]. rewrite Hcalls.
  intros Hc. apply in_app_or in Hc as [Hc | Hc]; [now left |].
  right. destruct (Hstops c Hc) as (source & n & note & -> & Hn & _).
  eauto.
Qed.


(** With a clock that gives a time in seconds back unchanged, every
    [stop] of one [triggerRelease] is at the same time, the time computed
    from the argument. *)
Theorem triggerRelease_stops_at_computed_time notes time s c :
  (forall t, toSeconds (toSeconds t) = toSeconds t) ->
  In c (calls (snd (triggerRelease notes time s))) ->
  In c (calls s) \/ exists source, c = SourceStop source (toSeconds time).
Proof.
  intros Hidem Hc.
  destruct (triggerRelease_calls_outcome notes time s c Hc)
    as [Hold | (source & n & -> & Hn)]; [now left |].
  right. exists source.
  assert (Hiter : Nat.iter n toSeconds time = toSeconds time).
  { destruct n as [| n]; [lia |]. clear - Hidem.
    induction n as [| n IH]; [reflexivity |].
    rewrite Nat.iter_succ, IH. apply Hidem. }
  now rewrite Hiter.
Qed.

(** A [triggerRelease] of notes that have nothing under their keys, as
    after a first release of them, does nothing at all. *)
Theorem triggerRelease_twice_is_once notes time time' s :
  let s' := snd (triggerRelease notes time s) in
  triggerRelease notes time' s' = (Normal tt, s').
Proof.
  cbv zeta. unfold triggerRelease.
  destruct (triggerRelease_forEach_outcome (toArray notes) time s)
    as (s' & new & Hrun & _ & _ & _ & Hempty & _).
  rewrite Hrun. cbn [snd]. clear - Hempty. revert time'.
  induction (toArray notes) as [| note rest IH]; intros time'.
  - reflexivity.
  - cbn [triggerRelease_forEach]. unfold bind.
    rewrite triggerRelease_note_idle by (apply Hempty; now left).
    apply IH. intros note' Hin. apply Hempty. now right.
Qed.

End MoreOfTheRelease.

Section TheTableInShape.

Context `{Collaborators}.

Lemma Map_get_None_keys {V} (m : list (Z * V)) key :
  Map_get m key = None <-> ~ In key (map fst m).
Proof.
  induction m as [| [k v] m IH]; cbn.
  - tauto.
  - destruct (Z.eqb_spec key k) as [-> | Hne].
    + split; [discriminate | intros Hnot; exfalso; apply Hnot; now left].
    + rewrite IH. split.
      * intros Hnot [Heq | Hin]; [congruence | contradiction].
      * intros Hnot Hin. apply Hnot. now right.
Qed.

Lemma Map_set_keys {V} (m : list (Z * V)) key value :
  map fst (Map_set m key value) =
  match Map_get m key with
  | Some _ => map fst m
  | None => map fst m ++ [key]
  end.
Proof.
  induction m as [| [k v] m IH]; cbn.
  - reflexivity.
  - destruct (Z.eqb_spec key k) as [-> | Hne]; cbn.
    + reflexivity.
    + rewrite IH. now destruct (Map_get m key).
Qed.

Lemma Map_set_keys_NoDup {V} (m : list (Z * V)) key value :
  NoDup (map fst m) -> NoDup (map fst (Map_set m key value)).
Proof.
  intros Hnodup. rewrite Map_set_keys.
  destruct (Map_get m key) eqn:Hget; [exact Hnodup |].
  apply Map_get_None_keys in Hget.
  apply NoDup_app. split; [exact Hnodup |]. split.
  - intros x Hx Hkey. apply list_elem_of_singleton in Hkey as ->.
    apply Hget. now apply list_elem_of_In.
  - apply NoDup_singleton.
Qed.

(** An array put under a key in place of a longer one takes sources out
    of the table and puts none in. *)
Lemma Map_set_shrinks {V} (m : list (Z * list V)) key value :
  value `sublist_of` default [] (Map_get m key) ->
  concat (map snd (Map_set m key value)) `sublist_of` concat (map snd m).
Proof.
  induction m as [| [k v] m IH]; cbn.
  - intros Hsub. apply sublist_nil_r in Hsub as ->. cbn. constructor.
  - destruct (Z.eqb_spec key k) as [-> | Hne]; cbn.
    + intros Hsub. now apply sublist_app.
    + intros Hsub. apply sublist_app; [reflexivity | now apply IH].
Qed.

(** An array with one more source at its end puts that source in the
    table and moves no other. *)
Lemma Map_set_pushes {V} (m : list (Z * list V)) key x :
  Permutation
    (concat (map snd (Map_set m key (default [] (Map_get m key) ++ [x]))))
    (x :: concat (map snd m)).
Proof.
  induction m as [| [k v] m IH]; cbn.
  - reflexivity.
  - destruct (Z.eqb_spec key k) as [-> | Hne]; cbn.
    + rewrite <- app_assoc. cbn. symmetry. apply Permutation_middle.
    + rewrite IH. symmetry. apply Permutation_middle.
Qed.

Lemma Map_get_sublist {V} (m : list (Z * list V)) key value :
  Map_get m key = Some value ->
  value `sublist_of` concat (map snd m).
Proof.
  induction m as [| [k v] m IH]; cbn.
  - discriminate.
  - destruct (Z.eqb_spec key k) as [-> | Hne].
    + intros [= ->]. apply sublist_inserts_r. reflexivity.
    + intros Hget. apply sublist_inserts_l. now apply IH.
Qed.

Lemma sublist_map {A B} (f : A -> B) (l1 l2 : list A) :
  l1 `sublist_of` l2 -> map f l1 `sublist_of` map f l2.
Proof. induction 1; cbn; now constructor. Qed.

Lemma sublist_Forall_keeps {A} (P : A -> Prop) (l1 l2 : list A) :
  l1 `sublist_of` l2 -> Forall P l2 -> Forall P l1.
Proof.
  induction 1 as [| x l1 l2 Hsub IH | x l1 l2 Hsub IH]; intros Hall.
  - constructor.
  - apply Forall_cons_1 in Hall as [Hx Hall]. constructor; auto.
  - apply Forall_cons_1 in Hall as [_ Hall]. auto.
Qed.

Lemma splice_source_sublist source (sources : list ToneBufferSource) :
  splice_source source sources `sublist_of` sources.
Proof.
  induction sources as [| x sources IH]; cbn.
  - constructor.
  - destruct (source_id x =? source_id source)%nat; now constructor.
Qed.

(** A state whose table lost sources, and gained none, is in shape when
    the state it comes from was. *)
Lemma table_consistent_shrinks (s s' : Sampler) :
  table_consistent s ->
  NoDup (map fst (_activeSources s')) ->
  table_sources s' `sublist_of` table_sources s ->
  (allocated s <= allocated s')%nat ->
  table_consistent s'.
Proof.
  intros (Hkeys & Hids & Hbuilt) Hkeys' Hsub Hle.
  split; [exact Hkeys' |]. split.
  - eapply sublist_NoDup; [exact Hids | now apply sublist_map].
  - eapply sublist_Forall_keeps in Hbuilt; [| exact Hsub].
    eapply Forall_impl; [exact Hbuilt |]. cbn. intros source Hlt. lia.
Qed.

Lemma table_consistent_attacked s midi buffer d time velocity :
  table_consistent s ->
  table_consistent (attacked s midi (attack_source s buffer d) time velocity).
Proof.
  intros (Hkeys & Hids & Hbuilt).
  pose proof (Map_set_pushes (_activeSources s) midi (attack_source s buffer d))
    as Hperm.
  unfold table_consistent, table_sources, attacked, sources_at. cbn.
  split; [now apply Map_set_keys_NoDup |]. split.
  - apply NoDup_ListNoDup. eapply Permutation_NoDup.
    + symmetry. apply Permutation_map. exact Hperm.
    + apply NoDup_ListNoDup. cbn. apply NoDup_cons. split; [| exact Hids].
      intros Hin. apply list_elem_of_In, in_map_iff in Hin
        as (source & Hid & Hin).
      rewrite Forall_forall in Hbuilt.
      apply list_elem_of_In, Hbuilt in Hin. lia.
  - eapply Permutation_Forall; [symmetry; exact Hperm |].
    constructor; [cbn; lia |].
    eapply Forall_impl; [exact Hbuilt |]. cbn. intros source Hlt. lia.
Qed.

Lemma table_consistent_released s midi f :
  table_consistent s ->
  table_consistent
    (set_activeSources (fun m => Map_set m midi []) (set_calls f s)).
Proof.
  intros Hs. apply (table_consistent_shrinks s); [exact Hs | | | cbn; lia].
  - cbn. apply Map_set_keys_NoDup, Hs.
  - unfold table_sources. cbn. apply Map_set_shrinks, sublist_nil_l.
Qed.

Lemma keeps_ret {A} (a : A) : keeps_table_consistent (ret a).
Proof. intros s Hs. exact Hs. Qed.

Lemma keeps_bind {A B} (m : Method Sampler A) (k : A -> Method Sampler B) :
  keeps_table_consistent m ->
  (forall a, keeps_table_consistent (k a)) ->
  keeps_table_consistent (bind m k).
Proof.
  intros Hm Hk s Hs. unfold bind. specialize (Hm s Hs).
  destruct (m s) as [[a | e] s1]; cbn in *; [now apply Hk | exact Hm].
Qed.

Lemma keeps_forEach {A} (callback : A -> Method Sampler unit) array :
  (forall x, keeps_table_consistent (callback x)) ->
  keeps_table_consistent (forEach callback array).
Proof.
  intros Hcb. induction array as [| x array IH]; cbn [forEach].
  - apply keeps_ret.
  - apply keeps_bind; [apply Hcb | intros _; exact IH].
Qed.

Lemma keeps_forEach_from {A} (callback : A -> nat -> Method Sampler unit)
    array index :
  (forall x i, keeps_table_consistent (callback x i)) ->
  keeps_table_consistent (forEach_from index callback array).
Proof.
  intros Hcb. revert index.
  induction array as [| x array IH]; intros index; cbn [forEach_from].
  - apply keeps_ret.
  - apply keeps_bind; [apply Hcb | intros _; apply IH].
Qed.

Lemma keeps_triggerAttack notes time velocity :
  keeps_table_consistent (triggerAttack notes time velocity).
Proof.
  unfold triggerAttack. apply keeps_forEach. intros note s Hs.
  destruct (triggerAttack_note_outcome s note time velocity)
    as [-> | (d & buffer & _ & _ & ->)]; cbn [snd].
  - exact Hs.
  - now apply table_consistent_attacked.
Qed.

Lemma keeps_triggerRelease notes time :
  keeps_table_consistent (triggerRelease notes time).
Proof.
  unfold triggerRelease. revert time.
  induction (toArray notes) as [| note rest IH]; intros time;
    cbn [triggerRelease_forEach].
  - apply keeps_ret.
  - apply keeps_bind; [| intros time'; apply IH].
    intros s Hs.
    destruct (triggerRelease_note_outcome s note time)
      as [[_ ->] | [_ ->]]; cbn [snd].
    + exact Hs.
    + now apply table_consistent_released.
Qed.

Lemma keeps_releaseAll time : keeps_table_consistent (releaseAll time).
Proof.
  intros s Hs. unfold releaseAll, bind, this.
  rewrite releaseAll_forEach_drains. cbn.
  apply (table_consistent_shrinks s); [exact Hs | | | cbn; lia].
  - cbn. unfold emptied. rewrite map_map. cbn. apply Hs.
  - unfold table_sources. cbn.
    replace (concat (map snd (emptied (_activeSources s))))
      with (@nil ToneBufferSource); [apply sublist_nil_l |].
    induction (_activeSources s) as [| [k v] m IH]; cbn; auto.
Qed.

Lemma keeps_dispose : keeps_table_consistent dispose.
Proof.
  intros s Hs. rewrite dispose_disposed. cbn [snd].
  apply (table_consistent_shrinks s); [exact Hs | | | cbn; lia].
  - cbn. constructor.
  - unfold table_sources. cbn. apply sublist_nil_l.
Qed.

Lemma keeps_onended midi source :
  keeps_table_consistent (onended midi source).
Proof.
  intros s Hs. unfold onended, update. cbn [snd].
  destruct (Map_get (_activeSources s) midi) as [sources |] eqn:Hget.
  - apply (table_consistent_shrinks s); [exact Hs | | | cbn; lia].
    + cbn. rewrite Hget. apply Map_set_keys_NoDup, Hs.
    + unfold table_sources. cbn. rewrite Hget.
      apply Map_set_shrinks. rewrite Hget. cbn.
      apply splice_source_sublist.
  - unfold set_activeSources. rewrite Hget. now destruct s.
Qed.

Lemma keeps_triggerAttackRelease notes duration time velocity :
  keeps_table_consistent (triggerAttackRelease notes duration time velocity).
Proof.
  unfold triggerAttackRelease.
  apply keeps_bind; [apply keeps_triggerAttack |]. intros _.
  destruct duration as [d | durations].
  - apply keeps_triggerRelease.
  - apply keeps_bind.
    + unfold assert. destruct (isArray notes).
      * apply keeps_ret.
      * intros s Hs. exact Hs.
    + intros _. apply keeps_forEach_from. intros note index.
      apply keeps_triggerRelease.
Qed.

(** Through any run of calls and of sources ending, a table that has one
    entry for a key, holds a source object once and holds only sources
    the instrument built, stays so; an instrument with an empty table
    starts so. *)
Theorem run_keeps_table_consistent ops s :
  table_consistent s -> table_consistent (run ops s).
Proof.
  revert s. induction ops as [| op ops IH]; intros s Hs; cbn [run].
  - exact Hs.
  - apply IH. destruct op; cbn [perform].
    + now apply keeps_triggerAttack.
    + now apply keeps_triggerRelease.
    + now apply keeps_releaseAll.
    + now apply keeps_triggerAttackRelease.
    + now apply keeps_dispose.
    + now apply keeps_onended.
Qed.

End TheTableInShape.

Section SourcesThatEnd.

Context `{Collaborators}.

Lemma filter_other_ids_all source (sources : list ToneBufferSource) :
  ~ In (source_id source) (map source_id sources) ->
  List.filter (fun x => negb (source_id x =? source_id source)%nat) sources
  = sources.
Proof.
  induction sources as [| x sources IH]; cbn; [reflexivity |].
  intros Hnot. destruct (Nat.eqb_spec (source_id x) (source_id source)).
  - exfalso. apply Hnot. left. congruence.
  - cbn. rewrite IH; [reflexivity |]. intros Hin. apply Hnot. now right.
Qed.

(** In an array that holds a source object once, taking the first
    occurrence out takes every occurrence out. *)
Lemma splice_source_filter source (sources : list ToneBufferSource) :
  NoDup (map source_id sources) ->
  splice_source source sources =
  List.filter (fun x => negb (source_id x =? source_id source)%nat) sources.
Proof.
  induction sources as [| x sources IH]; cbn; [reflexivity |].
  intros Hnodup. apply NoDup_cons in Hnodup as [Hx Hnodup].
  destruct (Nat.eqb_spec (source_id x) (source_id source)) as [Heq | Hne]; cbn.
  - symmetry. apply filter_other_ids_all. rewrite <- Heq.
    intros Hin. apply Hx. now apply list_elem_of_In.
  - now rewrite IH.
Qed.

Lemma sources_at_ids_NoDup s midi :
  table_consistent s -> NoDup (map source_id (sources_at s midi)).
Proof.
  intros (_ & Hids & _). unfold sources_at.
  destruct (Map_get (_activeSources s) midi) as [sources |] eqn:Hget; cbn.
  - eapply sublist_NoDup; [exact Hids |].
    apply sublist_map. now apply (Map_get_sublist _ midi).
  - constructor.
Qed.

Lemma sources_at_built s midi :
  table_consistent s ->
  Forall (fun source => (source_id source < allocated s)%nat)
         (sources_at s midi).
Proof.
  intros (_ & _ & Hbuilt). unfold sources_at.
  destruct (Map_get (_activeSources s) midi) as [sources |] eqn:Hget; cbn.
  - eapply sublist_Forall_keeps; [| exact Hbuilt].
    now apply (Map_get_sublist _ midi).
  - constructor.
Qed.

Lemma onended_outcome s midi source :
  table_consistent s ->
  sources_at (snd (onended midi source s)) midi =
    List.filter (fun x => negb (source_id x =? source_id source)%nat)
      (sources_at s midi) /\
  (forall key, key <> midi ->
     Map_get (_activeSources (snd (onended midi source s))) key
     = Map_get (_activeSources s) key).
Proof.
  intros Hs.
  pose proof (sources_at_ids_NoDup s midi Hs) as Hnodup.
  unfold sources_at in *. cbn.
  destruct (Map_get (_activeSources s) midi) as [sources |] eqn:Hget; cbn in *.
  - rewrite Map_get_set_eq. cbn.
    split; [now apply splice_source_filter |].
    intros key Hne. now apply Map_get_set_ne.
  - rewrite Hget. cbn. auto.
Qed.


(** A note is attacked and its source ends by itself: with the table in
    shape before, the array under the key of the note is what it was
    before the attack, and so is the entry of every other key. *)
Theorem attack_then_end_restores_the_array s P t v d :
  table_consistent s ->
  _findClosest (_buffers s) (toMidi P) = Normal d ->
  exists buffer s1,
    _buffers s !! (toMidi P - d) = Some buffer /\
    triggerAttack (One P) t v s = (Normal tt, s1) /\
    let s2 := snd (onended (toMidi P) (attack_source s buffer d) s1) in
    sources_at s2 (toMidi P) = sources_at s (toMidi P) /\
    (forall key, key <> toMidi P ->
       Map_get (_activeSources s2) key = Map_get (_activeSources s) key).
Proof.
  intros Hs Hd. destruct (_findClosest_stored _ _ _ Hd) as [buffer Hbuf].
  exists buffer, (attacked s (toMidi P) (attack_source s buffer d) t v).
  split; [exact Hbuf |]. split.
  { unfold triggerAttack. cbn [toArray forEach]. unfold bind.
    now rewrite (triggerAttack_note_resolved _ _ _ _ _ _ Hd Hbuf). }
  pose proof (table_consistent_attacked s (toMidi P) buffer d t v Hs) as Hs1.
  destruct (onended_outcome _ (toMidi P)
              (attack_source s buffer d) Hs1)
    as (Hat & Hother).
  cbv zeta. split.
  - rewrite Hat, sources_at_attacked_eq, List.filter_app.
    cbn [List.filter]. rewrite Nat.eqb_refl. cbn [negb]. rewrite app_nil_r.
    apply filter_other_ids_all. cbn [source_id attack_source]. intros Hin.
    apply in_map_iff in Hin as (source & Hid & Hin).
    pose proof (sources_at_built s (toMidi P) Hs) as Hbuilt.
    rewrite Forall_forall in Hbuilt.
    apply list_elem_of_In, Hbuilt in Hin. lia.
  - intros key Hne. rewrite Hother by exact Hne.
    now apply Map_get_attacked_ne.
Qed.

End SourcesThatEnd.

Section ReleaseAllAndDispose.

Context `{Collaborators}.

Lemma emptied_emptied (entries : list (Z * list ToneBufferSource)) :
  emptied (emptied entries) = emptied entries.
Proof.
  unfold emptied. rewrite map_map. reflexivity.
Qed.

Lemma emptied_sources (entries : list (Z * list ToneBufferSource)) :
  concat (map snd (emptied entries)) = [].
Proof. induction entries as [| [k v] m IH]; cbn; auto. Qed.

(** With nothing under the keys of the notes, a release does nothing. *)
Lemma triggerRelease_forEach_nothing_registered notes time s :
  (forall note, In note notes -> sources_at s (toMidi note) = []) ->
  triggerRelease_forEach notes time s = (Normal tt, s).
Proof.
  intros Hempty. revert time.
  induction notes as [| note rest IH]; intros time.
  - reflexivity.
  - cbn [triggerRelease_forEach]. unfold bind.
    rewrite triggerRelease_note_idle by (apply Hempty; now left).
    apply IH. intros note' Hin. apply Hempty. now right.
Qed.

Lemma releaseAll_outcome time s :
  releaseAll time s =
  (Normal tt,
   set_activeSources (fun _ => emptied (_activeSources s))
     (set_calls (fun cs => cs ++
        map (fun x => SourceStop x (toSeconds time)) (table_sources s)) s)).
Proof.
  unfold releaseAll, bind, this.
  rewrite releaseAll_forEach_drains. reflexivity.
Qed.

(** After [releaseAll] there is nothing left to release: a second
    [releaseAll] and a [triggerRelease] of any notes return and change
    nothing, not even the calls made. *)
Theorem releaseAll_leaves_nothing_to_release time s :
  let s' := snd (releaseAll time s) in
  (forall time', releaseAll time' s' = (Normal tt, s')) /\
  (forall notes time', triggerRelease notes time' s' = (Normal tt, s')).
Proof.
  cbv zeta. rewrite releaseAll_outcome. cbn [snd]. split.
  - intros time'. rewrite releaseAll_outcome. f_equal.
    unfold table_sources, set_activeSources, set_calls.
    cbn [_buffers _activeSources attack release curve allocated calls].
    now rewrite emptied_emptied, emptied_sources, app_nil_r.
  - intros notes time'. unfold triggerRelease.
    apply triggerRelease_forEach_nothing_registered.
    intros note _. unfold sources_at. cbn.
    destruct (Map_get (emptied (_activeSources s)) (toMidi note))
      as [sources |] eqn:Hget; [| reflexivity].
    cbn. now apply Map_get_emptied in Hget.
Qed.

(** [dispose] returns; it disposes the instrument's nodes, then the
    store, then each source of the table once, in the order of the table,
    and makes no other call: no source is stopped.  A second [dispose]
    returns too and finds no source to dispose. *)
Theorem dispose_disposes_each_source_once s :
  exists s',
    dispose s = (Normal tt, s') /\
    calls s' = calls s ++ InstrumentDispose :: BuffersDispose ::
               map SourceDispose (table_sources s) /\
    exists s'',
      dispose s' = (Normal tt, s'') /\
      calls s'' = calls s' ++ [InstrumentDispose; BuffersDispose].
Proof.
  exists (disposed s). split; [apply dispose_disposed |].
  split; [reflexivity |].
  exists (disposed (disposed s)). split; [apply dispose_disposed |].
  reflexivity.
Qed.

End ReleaseAllAndDispose.

Section AttackThenRelease.

Context `{Collaborators}.

(** An attack only adds to the arrays of the table. *)
Lemma triggerAttack_forEach_appends notes time velocity s key :
  exists added,
    sources_at (snd (forEach (triggerAttack_note time velocity) notes s)) key
    = sources_at s key ++ added.
Proof.
  apply (forEach_preserves (fun s s' =>
    exists added, sources_at s' key = sources_at s key ++ added)).
  - intros s0. exists []. now rewrite app_nil_r.
  - intros s1 s2 s3 [added1 He1] [added2 He2].
    exists (added1 ++ added2). now rewrite He2, He1, <- app_assoc.
  - intros note s0.
    destruct (triggerAttack_note_outcome s0 note time velocity)
      as [-> | (d & buffer & _ & _ & ->)]; cbn [snd].
    + exists []. now rewrite app_nil_r.
    + destruct (Z.eq_dec key (toMidi note)) as [-> | Hne].
      * eexists. apply sources_at_attacked_eq.
      * exists []. rewrite app_nil_r. now apply sources_at_attacked_ne.
Qed.

(** Notes that all resolve: each gets a source, started at the given time
    and found under the key of its note when the attack is over. *)
Lemma triggerAttack_all_started (notes : list Frequency) time velocity s :
  Forall (fun note =>
    exists d, _findClosest (_buffers s) (toMidi note) = Normal d) notes ->
  exists s1 started,
    forEach (triggerAttack_note time velocity) notes s = (Normal tt, s1) /\
    calls s1 = calls s ++ started /\
    allocated s1 = (allocated s + length notes)%nat /\
    length started = length notes /\
    (forall c, In c started ->
       exists source note,
         c = SourceStart source time velocity /\
         In note notes /\ In source (sources_at s1 (toMidi note))).
Proof.
  revert s. induction notes as [| note notes IH]; intros s Hall.
  - exists s, []. cbn. rewrite app_nil_r.
    split; [reflexivity |]. split; [reflexivity |]. split; [lia |].
    split; [reflexivity |]. intros c [].
  - apply Forall_cons_1 in Hall as [[d Hd] Hall].
    destruct (_findClosest_stored _ _ _ Hd) as [buffer Hbuf].
    cbn [forEach]. unfold bind.
    rewrite (triggerAttack_note_resolved _ _ _ _ _ _ Hd Hbuf).
    set (source := attack_source s buffer d).
    set (sa := attacked s (toMidi note) source time velocity).
    destruct (IH sa Hall)
      as (s1 & started & Hrun & Hcalls & Halloc & Hlen & Hsrc).
    exists s1, (SourceStart source time velocity :: started).
    split; [exact Hrun |]. split.
    { rewrite Hcalls. unfold sa, attacked. cbn.
      now rewrite <- app_assoc. }
    split; [rewrite Halloc; unfold sa, attacked; cbn; lia |].
    split; [cbn; now rewrite Hlen |].
    intros c [<- | Hc].
    + exists source, note. split; [reflexivity |]. split; [now left |].
      destruct (triggerAttack_forEach_appends notes time velocity sa
                  (toMidi note)) as [added Hadded].
      rewrite Hrun in Hadded. cbn [snd] in Hadded. rewrite Hadded.
      unfold sa. rewrite sources_at_attacked_eq.
      apply in_or_app. left. apply in_or_app. right. now left.
    + destruct (Hsrc c Hc) as (source' & note' & -> & Hin & Hat).
      exists source', note'. split; [reflexivity |].
      split; [now right | exact Hat].
Qed.

(** Every note of a sequence released by a call of its own, the call for
    the note at index [i] at the time [T i]. *)
Lemma release_each_outcome (T : nat -> Time) notes index s :
  exists s' new,
    forEach_from index (fun note i => triggerRelease (One note) (T i)) notes s
      = (Normal tt, s') /\
    allocated s' = allocated s /\
    calls s' = calls s ++ new /\
    (forall key,
       sources_at s' key = [] \/
       Map_get (_activeSources s') key = Map_get (_activeSources s) key) /\
    (forall note, In note notes -> sources_at s' (toMidi note) = []) /\
    (forall c, In c new ->
       exists source i note,
         c = SourceStop source (toSeconds (T (index + i)%nat)) /\
         nth_error notes i = Some note /\
         In source (sources_at s (toMidi note)) /\
         (forall j note', (j < i)%nat -> nth_error notes j = Some note' ->
            toMidi note' <> toMidi note)) /\
    (forall note source,
       In note notes -> In source (sources_at s (toMidi note)) ->
       exists time', In (SourceStop source time') new).
Proof.
  revert index s. induction notes as [| note notes IH]; intros index s.
  - exists s, []. cbn. rewrite app_nil_r.
    split; [reflexivity |]. split; [reflexivity |]. split; [reflexivity |].
    split; [auto |]. split; [intros note [] |].
    split; [intros c [] | intros note source []].
  - cbn [forEach_from]. unfold bind at 1.
    unfold triggerRelease. cbn [toArray triggerRelease_forEach].
    unfold bind at 1.
    destruct (triggerRelease_note_outcome s note (T index))
      as [[Hidle ->] | [Hactive ->]]; cbn [ret].
    + destruct (IH (S index) s)
        as (s' & new & Hrun & Halloc & Hcalls & Hkeys & Hempty & Hstops & Hall).
      exists s', new. split; [exact Hrun |]. split; [exact Halloc |].
      split; [exact Hcalls |]. split; [exact Hkeys |].
      split.
      { intros note' [<- | Hin]; [| now apply Hempty].
        destruct (Hkeys (toMidi note)) as [Hnil | Hsame]; [exact Hnil |].
        unfold sources_at in *. now rewrite Hsame. }
      split.
      * intros c Hc.
        destruct (Hstops c Hc)
          as (source & i & note' & -> & Hnth & Hsrc & Hfirst).
        exists source, (S i), note'.
        split; [now rewrite Nat.add_succ_r |].
        split; [exact Hnth |]. split; [exact Hsrc |].
        intros [| j] note'' Hlt Hj; cbn in Hj.
        -- injection Hj as <-. intros Heq.
           rewrite <- Heq, Hidle in Hsrc. contradiction.
        -- apply (Hfirst j); [lia | exact Hj].
      * intros note' source [<- | Hin] Hsrc.
        -- rewrite Hidle in Hsrc. contradiction.
        -- eapply Hall; eassumption.
    + set (sources := sources_at s (toMidi note)) in *.
      set (s1 := set_activeSources _ _).
      assert (Hat1 : forall key, key <> toMidi note ->
                sources_at s1 key = sources_at s key).
      { intros key Hne. unfold sources_at, s1.
        now rewrite Map_get_released_ne. }
      assert (Hempty1 : sources_at s1 (toMidi note) = [])
        by apply sources_at_released_eq.
      destruct (IH (S index) s1)
        as (s' & new & Hrun & Halloc & Hcalls & Hkeys & Hempty & Hstops & Hall).
      assert (Hnote : sources_at s' (toMidi note) = []).
      { destruct (Hkeys (toMidi note)) as [Hnil | Hsame]; [exact Hnil |].
        unfold sources_at in *. now rewrite Hsame. }
      exists s',
        (map (fun x => SourceStop x (toSeconds (T index))) sources ++ new).
      split; [exact Hrun |]. split; [exact Halloc |].
      split; [rewrite Hcalls; unfold s1, set_activeSources, set_calls; cbn;
              now rewrite app_assoc |].
      split.
      { intros key. destruct (Z.eq_dec key (toMidi note)) as [-> | Hne].
        - now left.
        - destruct (Hkeys key) as [Hnil | Hsame]; [now left | right].
          rewrite Hsame. unfold s1. now apply Map_get_released_ne. }
      split.
      { intros note' [<- | Hin]; [exact Hnote | now apply Hempty]. }
      split.
      * intros c Hc. apply in_app_or in Hc as [Hc | Hc].
        -- apply in_map_iff in Hc as (source & <- & Hsrc).
           exists source, 0%nat, note.
           split; [now rewrite Nat.add_0_r |].
           split; [reflexivity |]. split; [exact Hsrc |].
           intros j note' Hlt. lia.
        -- destruct (Hstops c Hc)
             as (source & i & note' & -> & Hnth & Hsrc & Hfirst).
           assert (Hne : toMidi note' <> toMidi note).
           { intros Heq. rewrite Heq, Hempty1 in Hsrc. contradiction. }
           exists source, (S i), note'.
           split; [now rewrite Nat.add_succ_r |].
           split; [exact Hnth |].
           split; [now rewrite <- (Hat1 _ Hne) |].
           intros [| j] note'' Hlt Hj; cbn in Hj.
           ++ injection Hj as <-. congruence.
           ++ apply (Hfirst j); [lia | exact Hj].
      * intros note' source Hin Hsrc.
        destruct (Z.eq_dec (toMidi note') (toMidi note)) as [Heq | Hne].
        -- exists (toSeconds (T index)). apply in_or_app. left.
           apply (in_map (fun x => SourceStop x (toSeconds (T index)))).
           now rewrite Heq in Hsrc.
        -- destruct Hin as [<- | Hin]; [contradiction |].
           rewrite <- (Hat1 _ Hne) in Hsrc.
           destruct (Hall note' source Hin Hsrc) as [time' Hstop].
           exists time'. apply in_or_app. now right.
Qed.


(** [triggerAttackRelease] over a sequence of notes that all resolve,
    with an array of durations: the call returns, having started one
    source for each note and stopped every source under the keys of the
    notes.  The sources under a key are stopped by the release of the
    first note of the sequence that has this key, at the computed time
    plus the computed duration paired with the index of that note; a
    later note of the same pitch finds nothing left and its duration is
    not used. *)
Theorem attackRelease_paired_durations
    (notes : list Frequency) (durations : list Time) time velocity s :
  Forall (fun note =>
    exists i, _findClosest (_buffers s) (toMidi note) = Normal i) notes ->
  exists s' started stops,
    triggerAttackRelease (Many notes) (Many durations) time velocity s
      = (Normal tt, s') /\
    calls s' = calls s ++ started ++ stops /\
    allocated s' = (allocated s + length notes)%nat /\
    length started = length notes /\
    (forall note, In note notes -> sources_at s' (toMidi note) = []) /\
    (forall c, In c started ->
       exists source,
         c = SourceStart source (toSeconds time) velocity /\
         exists time', In (SourceStop source time') stops) /\
    (forall c, In c stops ->
       exists source i note,
         c = SourceStop source
               (toSeconds (time_add (toSeconds time)
                             (toSeconds (paired_duration durations i)))) /\
         nth_error notes i = Some note /\
         In source
           (sources_at
              (snd (triggerAttack (Many notes) (toSeconds time) velocity s))
              (toMidi note)) /\
         (forall j note', (j < i)%nat -> nth_error notes j = Some note' ->
            toMidi note' <> toMidi note)).
Proof.
  intros Hall.
  destruct (triggerAttack_all_started notes (toSeconds time) velocity s Hall)
    as (s1 & started & Hrun & Hcalls & Halloc & Hlen & Hsrc).
  destruct (release_each_outcome
              (fun i => time_add (toSeconds time)
                          (toSeconds (paired_duration durations i)))
              notes 0 s1)
    as (s' & stops & Hrel & Halloc' & Hcalls' & _ & Hempty & Hstops & Hevery).
  exists s', started, stops. split.
  { unfold triggerAttackRelease, triggerAttack.
    cbn [toArray isArray assert]. unfold bind, ret. rewrite Hrun.
    exact Hrel. }
  split; [rewrite Hcalls', Hcalls; now rewrite app_assoc |].
  split; [congruence |]. split; [exact Hlen |]. split; [exact Hempty |].
  split.
  - intros c Hc. destruct (Hsrc c Hc) as (source & note & -> & Hin & Hat).
    exists source. split; [reflexivity |]. eapply Hevery; eassumption.
  - intros c Hc.
    destruct (Hstops c Hc) as (source & i & note & -> & Hnth & Hat & Hfirst).
    exists source, i, note. split; [reflexivity |]. split; [exact Hnth |].
    split; [| exact Hfirst].
    unfold triggerAttack. cbn [toArray]. now rewrite Hrun.
Qed.

(** The duration paired with the note at [index]: its own when the array
    of durations is long enough, the last one when the array is shorter
    and not empty, and [undefined] when the array is empty. *)
Theorem paired_duration_clamps (durations : list Time) index :
  ((index < length durations)%nat ->
     paired_duration durations index = nth index durations time_undefined) /\
  ((length durations <= index)%nat -> durations <> [] ->
     paired_duration durations index = List.last durations time_undefined) /\
  (durations = [] -> paired_duration durations index = time_undefined).
Proof.
  unfold paired_duration, array_at. split; [| split].
  - intros Hlt.
    rewrite Z.min_l by lia.
    destruct (Z.ltb_spec (Z.of_nat index) 0); [lia |].
    now rewrite Nat2Z.id.
  - intros Hge Hne.
    assert (Hpos : (0 < length durations)%nat)
      by (destruct durations; [contradiction | cbn; lia]).
    rewrite Z.min_r by lia.
    destruct (Z.ltb_spec (Z.of_nat (length durations) - 1) 0); [lia |].
    replace (Z.to_nat (Z.of_nat (length durations) - 1))
      with (length durations - 1)%nat by lia.
    clear. induction durations as [| x l IH]; [reflexivity |].
    destruct l as [| y l]; [reflexivity |].
    change (List.last (x :: y :: l) time_undefined)
      with (List.last (y :: l) time_undefined).
    rewrite <- IH. cbn [length]. rewrite !Nat.sub_succ, !Nat.sub_0_r.
    reflexivity.
  - intros ->. cbn. now destruct index.
Qed.

End AttackThenRelease.

(** * The processor of the feedback comb filter *)

Section WorkletProperties.

Import Worklet.

Context `{Arithmetic}.

Lemma nth_insert_eq {A} (l : list A) i x d :
  (i < length l)%nat -> nth i (<[i := x]> l) d = x.
Proof.
  intros Hlt. rewrite nth_lookup, list_lookup_insert_eq by exact Hlt.
  reflexivity.
Qed.

Lemma nth_insert_ne {A} (l : list A) i j x d :
  i <> j -> nth j (<[i := x]> l) d = nth j l d.
Proof.
  intros Hne. rewrite !nth_lookup, list_lookup_insert_ne by exact Hne.
  reflexivity.
Qed.

Lemma typed_set_length array i value :
  length (typed_set array i value) = length array.
Proof.
  destruct i as [i |]; cbn; [| reflexivity].
  destruct (i <? 0); [reflexivity | apply length_insert].
Qed.

Lemma getParameter_single value index : getParameter [value] index = value.
Proof. reflexivity. Qed.

(** A frame with no delay: the value goes to the output as it is. *)
Lemma process_value_no_delay sampleRate currentFrame delayLength parameters
    channelNum value index st channel :
  floor_times (getParameter (param_delayTime parameters) index) sampleRate
    <= 0 ->
  output st !! channelNum = Some channel ->
  exists buffer',
    length buffer' = length (delayBuffer st) /\
    process_value sampleRate currentFrame delayLength parameters channelNum
      value index st =
    (Completed,
     {| delayBuffer := buffer';
        output := <[channelNum := <[index := fround value]> channel]>
                    (output st) |}).
Proof.
  intros Hdelay Hchannel. unfold process_value. rewrite Hchannel.
  eexists. split; [apply typed_set_length |].
  destruct (Z.ltb_spec 0
    (floor_times (getParameter (param_delayTime parameters) index)
       sampleRate)) as [Hpos | _]; [lia |].
  cbn [typed_set]. destruct (Z.ltb_spec (Z.of_nat index) 0); [lia |].
  now rewrite Nat2Z.id.
Qed.

(** A channel with no delay at any frame: the frames from [index] on are
    copied, rounded, over the output channel. *)
Lemma channel_forEach_no_delay sampleRate currentFrame delayLength parameters
    channelNum xs :
  (forall index,
     floor_times (getParameter (param_delayTime parameters) index) sampleRate
       <= 0) ->
  forall index st channel,
    output st !! channelNum = Some channel ->
    length channel = (index + length xs)%nat ->
    exists buffer',
      length buffer' = length (delayBuffer st) /\
      channel_forEach
        (process_value sampleRate currentFrame delayLength parameters
           channelNum) index xs st =
      (Completed,
       {| delayBuffer := buffer';
          output := <[channelNum := take index channel ++ map fround xs]>
                      (output st) |}).
Proof.
  intros Hdelay. induction xs as [| x xs IH]; intros index st channel Hch Hlen.
  - exists (delayBuffer st). split; [reflexivity |]. cbn.
    rewrite app_nil_r, firstn_all2 by (cbn in Hlen; lia).
    rewrite list_insert_id by exact Hch. now destruct st.
  - cbn [channel_forEach].
    destruct (process_value_no_delay sampleRate currentFrame delayLength
                parameters channelNum x index st channel (Hdelay index) Hch)
      as (buffer1 & Hlen1 & ->).
    set (channel1 := <[index := fround x]> channel).
    assert (Hbound : (channelNum < length (output st))%nat)
      by (apply lookup_lt_is_Some; eauto).
    destruct (IH (S index)
                {| delayBuffer := buffer1;
                   output := <[channelNum := channel1]> (output st) |}
                channel1)
      as (buffer' & Hlen' & ->).
    { cbn. now apply list_lookup_insert_eq. }
    { unfold channel1. rewrite length_insert. cbn in Hlen. lia. }
    exists buffer'. split; [cbn in Hlen'; congruence |].
    cbn. rewrite list_insert_insert_eq. do 3 f_equal.
    unfold channel1.
    rewrite (take_S_r _ _ (fround x)).
    + rewrite take_insert_ge by lia. now rewrite <- app_assoc.
    + apply list_lookup_insert_eq. cbn in Hlen. lia.
Qed.

(** With a delay of no frame at every frame of the block, and an output
    of the shape of the input, [process] returns [true] and the output is
    the input, rounded; the delay line keeps its length. *)
Theorem worklet_no_delay_passes_input_through
    sampleRate currentFrame input output0 inputs outputs parameters buffer :
  (forall index,
     floor_times (getParameter (param_delayTime parameters) index) sampleRate
       <= 0) ->
  Forall2 (fun xs channel => length xs = length channel) input output0 ->
  exists buffer',
    length buffer' = length buffer /\
    process sampleRate currentFrame (input :: inputs) (output0 :: outputs)
      parameters buffer
    = (Some true, buffer', Some (map (map fround) input)).
Proof.
  intros Hdelay Hshape. unfold process. cbn [lookup list_lookup].
  assert (Hloop : forall input channelNum st,
    Forall2 (fun xs channel => length xs = length channel)
      input (drop channelNum (output st)) ->
    exists buffer',
      length buffer' = length (delayBuffer st) /\
      input_forEach sampleRate currentFrame (Z.of_nat (length buffer))
        parameters channelNum input st =
      (Completed,
       {| delayBuffer := buffer';
          output := take channelNum (output st) ++ map (map fround) input |})).
  { clear input Hshape.
    induction input as [| xs input IH]; intros channelNum st Hshape.
    - exists (delayBuffer st). split; [reflexivity |]. cbn.
      apply Forall2_nil_inv_l in Hshape.
      rewrite app_nil_r.
      apply (f_equal length) in Hshape. rewrite length_drop in Hshape.
      cbn in Hshape. rewrite take_ge by lia. now destruct st.
    - apply Forall2_cons_inv_l in Hshape
        as (channel & tail & Hlen & Hshape & Hdrop).
      assert (Hch : output st !! channelNum = Some channel).
      { rewrite <- (Nat.add_0_r channelNum), <- lookup_drop, Hdrop.
        reflexivity. }
      cbn [input_forEach].
      destruct (channel_forEach_no_delay sampleRate currentFrame
                  (Z.of_nat (length buffer)) parameters channelNum xs Hdelay
                  0%nat st channel Hch)
        as (buffer1 & Hlen1 & ->); [cbn; lia |].
      cbn [take app].
      set (st1 := {| delayBuffer := buffer1; output := _ |}).
      destruct (IH (S channelNum) st1) as (buffer' & Hlen' & ->).
      { unfold st1. cbn [output]. rewrite drop_insert_lt by lia.
        replace (S channelNum) with (channelNum + 1)%nat by lia.
        rewrite <- drop_drop, Hdrop. exact Hshape. }
      exists buffer'. split; [unfold st1 in Hlen'; cbn in Hlen'; congruence |].
      do 2 f_equal. unfold st1. cbn.
      rewrite (take_S_r _ _ (map fround xs)).
      + rewrite take_insert_ge by lia. now rewrite <- app_assoc.
      + apply list_lookup_insert_eq. apply lookup_lt_is_Some. eauto. }
  destruct (Hloop input 0%nat {| delayBuffer := buffer; output := output0 |})
    as (buffer' & Hlen' & ->); [exact Hshape |].
  exists buffer'. split; [exact Hlen' |]. reflexivity.
Qed.

(** ** The delay line *)

Lemma mod_eq_close a b L :
  0 < L -> a mod L = b mod L -> - L < a - b < L -> a = b.
Proof.
  intros HL Hmod Hclose.
  pose proof (Z.div_mod a L ltac:(lia)) as Ha.
  pose proof (Z.div_mod b L ltac:(lia)) as Hb.
  assert (Hq : a - b = L * (a / L - b / L)) by lia.
  assert (a / L - b / L = 0) by nia. lia.
Qed.

Lemma to_nat_mod_lt a (len : nat) :
  (0 < len)%nat -> (Z.to_nat (a mod Z.of_nat len) < len)%nat.
Proof.
  intros Hpos. pose proof (Z.mod_pos_bound a (Z.of_nat len) ltac:(lia)). lia.
Qed.

Lemma to_nat_mod_eq_close a b (len : nat) :
  (0 < len)%nat ->
  Z.to_nat (a mod Z.of_nat len) = Z.to_nat (b mod Z.of_nat len) ->
  - Z.of_nat len < a - b < Z.of_nat len -> a = b.
Proof.
  intros Hpos Heq Hclose.
  pose proof (Z.mod_pos_bound a (Z.of_nat len) ltac:(lia)).
  pose proof (Z.mod_pos_bound b (Z.of_nat len) ltac:(lia)).
  apply (mod_eq_close a b (Z.of_nat len)); lia.
Qed.

(** A frame with a delay of [D] frames, [D] at least 1, one channel and
    parameters given once for the block: the frame outputs what the line
    holds at the current index and stores, [D] indices further, its input
    plus [feedback] times what it read. *)
Lemma process_value_delayed sampleRate currentFrame dt fb (D : nat)
    value index buffer channel :
  0 <= currentFrame ->
  floor_times dt sampleRate = Z.of_nat D ->
  (1 <= D)%nat -> (0 < length buffer)%nat ->
  let L := Z.of_nat (length buffer) in
  let read :=
    nth (Z.to_nat ((currentFrame + Z.of_nat index) mod L)) buffer
      undefined_number in
  process_value sampleRate currentFrame L
    {| param_delayTime := [dt]; param_feedback := [fb] |} 0 value index
    {| delayBuffer := buffer; output := [channel] |} =
  (Completed,
   {| delayBuffer :=
        <[Z.to_nat ((currentFrame + Z.of_nat index + Z.of_nat D) mod L)
          := fround (plus value (times read fb))]> buffer;
      output := [<[index := fround read]> channel] |}).
Proof.
  intros Hcf HD Hpos Hlen L read.
  unfold process_value.
  cbn [param_delayTime param_feedback delayBuffer output].
  rewrite !getParameter_single, HD.
  assert (HL : 0 < L) by (unfold L; lia).
  unfold js_rem. destruct (Z.eqb_spec L 0) as [| _]; [lia |].
  rewrite !Z.rem_mod_nonneg by lia.
  pose proof (Z.mod_pos_bound (currentFrame + Z.of_nat index) L HL).
  pose proof (Z.mod_pos_bound
                (currentFrame + Z.of_nat index + Z.of_nat D) L HL).
  cbn [typed_get typed_set lookup list_lookup]. unfold array_at.
  destruct (Z.ltb_spec ((currentFrame + Z.of_nat index) mod L) 0); [lia |].
  destruct (Z.ltb_spec
    ((currentFrame + Z.of_nat index + Z.of_nat D) mod L) 0); [lia |].
  destruct (Z.ltb_spec (Z.of_nat index) 0); [lia |].
  destruct (Z.ltb_spec 0 (Z.of_nat D)); [| lia].
  rewrite Nat2Z.id. reflexivity.
Qed.

(** The loop over the frames of the channel, from the frame [k] on, with
    what the frames before [k] have read, output and stored. *)
Lemma comb_channel_loop sampleRate currentFrame dt fb (D : nat)
    (b0 xs : list Number) :
  0 <= currentFrame ->
  floor_times dt sampleRate = Z.of_nat D ->
  (1 <= D <= length b0)%nat ->
  (length xs <= length b0)%nat ->
  let L := Z.of_nat (length b0) in
  let r j := Z.to_nat ((currentFrame + Z.of_nat j) mod L) in
  let w j := Z.to_nat ((currentFrame + Z.of_nat j + Z.of_nat D) mod L) in
  let stored (reads : list Number) j :=
    fround (plus (nth j xs undefined_number)
                 (times (nth j reads undefined_number) fb)) in
  let spec (reads : list Number) j :=
    if (j <? D)%nat then nth (r j) b0 undefined_number
    else stored reads (j - D)%nat in
  forall rest k buffer channel reads,
    drop k xs = rest ->
    length buffer = length b0 ->
    length channel = length xs ->
    length reads = k ->
    (forall j, (j < k)%nat -> nth j reads undefined_number = spec reads j) ->
    take k channel = map fround reads ->
    (forall j, (j < k)%nat ->
       nth (w j) buffer undefined_number = stored reads j) ->
    (forall p, (forall j, (j < k)%nat -> p <> w j) ->
       nth p buffer undefined_number = nth p b0 undefined_number) ->
    exists reads' buffer',
      channel_forEach
        (process_value sampleRate currentFrame L
           {| param_delayTime := [dt]; param_feedback := [fb] |} 0)
        k rest {| delayBuffer := buffer; output := [channel] |} =
      (Completed,
       {| delayBuffer := buffer'; output := [map fround reads'] |}) /\
      length reads' = length xs /\
      (forall j, (j < length xs)%nat ->
         nth j reads' undefined_number = spec reads' j) /\
      length buffer' = length b0 /\
      (forall j, (j < length xs)%nat ->
         nth (w j) buffer' undefined_number = stored reads' j) /\
      (forall p, (forall j, (j < length xs)%nat -> p <> w j) ->
         nth p buffer' undefined_number = nth p b0 undefined_number).
Proof.
  intros Hcf HD [HD1 HDL] Hn L r w stored spec.
  assert (Hpos : (0 < length b0)%nat) by lia.
  induction rest as [| x rest IH];
    intros k buffer channel reads Hdrop Hlenb Hlenc Hlenr Hreads Hout
           Hstored Hkept.
  - assert (Hk : k = length xs).
    { apply (f_equal length) in Hdrop, Hout.
      rewrite length_drop in Hdrop. rewrite length_take, length_map in Hout.
      cbn in Hdrop. lia. }
    rewrite Hk, <- Hlenc, firstn_all in Hout.
    exists reads, buffer. cbn [channel_forEach]. rewrite Hout, <- Hk.
    split; [reflexivity |]. split; [exact Hlenr |].
    split; [exact Hreads |]. split; [exact Hlenb |].
    split; [exact Hstored | exact Hkept].
  - assert (Hk : (k < length xs)%nat).
    { apply (f_equal length) in Hdrop. rewrite length_drop in Hdrop.
      cbn in Hdrop. lia. }
    assert (Hx : xs !! k = Some x).
    { rewrite <- (Nat.add_0_r k), <- lookup_drop, Hdrop. reflexivity. }
    assert (Hnx : nth k xs undefined_number = x)
      by (rewrite nth_lookup, Hx; reflexivity).
    cbn [channel_forEach].
    pose proof (process_value_delayed sampleRate currentFrame dt fb D x k
                  buffer channel Hcf HD HD1 ltac:(lia)) as Hstep.
    cbv zeta in Hstep. rewrite Hlenb in Hstep.
    change (Z.of_nat (length b0)) with L in Hstep.
    change (Z.to_nat ((currentFrame + Z.of_nat k) mod L)) with (r k) in Hstep.
    change (Z.to_nat ((currentFrame + Z.of_nat k + Z.of_nat D) mod L))
      with (w k) in Hstep.
    rewrite Hstep. clear Hstep.
    set (v := nth (r k) buffer undefined_number).
    assert (Hwlt : forall j, (w j < length b0)%nat)
      by (intros j; apply to_nat_mod_lt; exact Hpos).
    assert (Hwinj : forall i j,
      (i < length xs)%nat -> (j < length xs)%nat -> w i = w j -> i = j).
    { intros i j Hi Hj Heq. unfold w, L in Heq.
      apply to_nat_mod_eq_close in Heq; [lia | exact Hpos | lia]. }
    assert (Hrw : forall i, (i < k)%nat -> r k = w i -> k = (i + D)%nat).
    { intros i Hi Heq. unfold r, w, L in Heq.
      apply to_nat_mod_eq_close in Heq; [lia | exact Hpos | lia]. }
    assert (Hv : v = spec reads k).
    { unfold v, spec. destruct (Nat.ltb_spec k D) as [Hlt | Hge].
      - apply Hkept. intros j Hj Heq. apply Hrw in Heq; lia.
      - replace (r k) with (w (k - D)%nat).
        + apply Hstored. lia.
        + unfold r, w. do 2 f_equal. lia. }
    assert (Hnth_old : forall j, (j < k)%nat ->
      nth j (reads ++ [v]) undefined_number = nth j reads undefined_number).
    { intros j Hj. apply app_nth1. lia. }
    assert (Hnth_new : nth k (reads ++ [v]) undefined_number = v).
    { rewrite app_nth2 by lia. rewrite Hlenr, Nat.sub_diag. reflexivity. }
    assert (Hstored_old : forall j, (j < k)%nat ->
      stored (reads ++ [v]) j = stored reads j).
    { intros j Hj. unfold stored. now rewrite Hnth_old. }
    assert (Hspec_old : forall j, (j <= k)%nat ->
      spec (reads ++ [v]) j = spec reads j).
    { intros j Hj. unfold spec. destruct (Nat.ltb_spec j D); [reflexivity |].
      apply Hstored_old. lia. }
    apply (IH (S k)
             (<[w k := fround (plus x (times v fb))]> buffer)
             (<[k := fround v]> channel) (reads ++ [v])).
    + replace (S k) with (k + 1)%nat by lia.
      rewrite <- drop_drop, Hdrop. reflexivity.
    + now rewrite length_insert.
    + now rewrite length_insert.
    + rewrite length_app. cbn. lia.
    + intros j Hj. destruct (Nat.eq_dec j k) as [-> | Hne].
      * rewrite Hnth_new, Hspec_old by lia. exact Hv.
      * rewrite Hnth_old, Hspec_old by lia. apply Hreads. lia.
    + rewrite (take_S_r _ _ (fround v)).
      * rewrite take_insert_ge by lia. rewrite Hout, map_app. reflexivity.
      * apply list_lookup_insert_eq. lia.
    + intros j Hj. destruct (Nat.eq_dec j k) as [-> | Hne].
      * rewrite nth_insert_eq by (rewrite Hlenb; apply Hwlt).
        unfold stored. now rewrite Hnth_new, Hnx.
      * rewrite nth_insert_ne.
        -- rewrite Hstored_old by lia. apply Hstored. lia.
        -- intros Heq. apply Hwinj in Heq; lia.
    + intros p Hp. rewrite nth_insert_ne.
      * apply Hkept. intros j Hj. apply Hp. lia.
      * intros Heq. apply (Hp k); [lia | congruence].
Qed.

(** One block of one channel through the delay line. *)
Lemma process_comb_block sampleRate currentFrame dt fb (D : nat)
    (xs out buffer : list Number) inputs outputs :
  0 <= currentFrame ->
  floor_times dt sampleRate = Z.of_nat D ->
  (1 <= D <= length buffer)%nat ->
  (length xs <= length buffer)%nat ->
  length out = length xs ->
  let L := Z.of_nat (length buffer) in
  let w j := Z.to_nat ((currentFrame + Z.of_nat j + Z.of_nat D) mod L) in
  exists reads buffer',
    comb_reads buffer currentFrame D fb xs reads /\
    process sampleRate currentFrame ([xs] :: inputs) ([out] :: outputs)
      {| param_delayTime := [dt]; param_feedback := [fb] |} buffer
    = (Some true, buffer', Some [map fround reads]) /\
    length buffer' = length buffer /\
    (forall j, (j < length xs)%nat ->
       nth (w j) buffer' undefined_number =
       fround (plus (nth j xs undefined_number)
                    (times (nth j reads undefined_number) fb))) /\
    (forall p, (forall j, (j < length xs)%nat -> p <> w j) ->
       nth p buffer' undefined_number = nth p buffer undefined_number).
Proof.
  intros Hcf HD HDL Hn Hout L w.
  destruct (comb_channel_loop sampleRate currentFrame dt fb D buffer xs
              Hcf HD HDL Hn xs 0%nat buffer out [])
    as (reads & buffer' & Hrun & Hlen & Hspec & Hlenb & Hstored & Hkept);
    try reflexivity; try (intros j Hj; lia); try exact Hout.
  exists reads, buffer'.
  split; [split; [exact Hlen | exact Hspec] |].
  split.
  { unfold process. cbn [lookup list_lookup input_forEach].
    fold L in Hrun. fold L. rewrite Hrun. reflexivity. }
  split; [exact Hlenb |]. split; [exact Hstored | exact Hkept].
Qed.


(** One channel, a delay of [D] frames with [D] between 1 and the length
    of the line, parameters given once for the block, and a block no
    longer than the line: [process] returns [true]; the frame [j] outputs
    what the line held for the first [D] frames and, from the frame [D]
    on, the input of the frame [j - D] plus [feedback] times the output
    of that frame (the recurrence of the comb filter, inside the block).
    What each frame stores is left in the line [D] indices after the
    current one, for the blocks to come; the rest of the line, and its
    length, are as before. *)
Theorem worklet_comb_recurrence sampleRate currentFrame dt fb (D : nat)
    (xs out buffer : list Number) inputs outputs :
  0 <= currentFrame ->
  floor_times dt sampleRate = Z.of_nat D ->
  (1 <= D <= length buffer)%nat ->
  (length xs <= length buffer)%nat ->
  length out = length xs ->
  let L := Z.of_nat (length buffer) in
  let w j := Z.to_nat ((currentFrame + Z.of_nat j + Z.of_nat D) mod L) in
  exists reads buffer',
    comb_reads buffer currentFrame D fb xs reads /\
    process sampleRate currentFrame ([xs] :: inputs) ([out] :: outputs)
      {| param_delayTime := [dt]; param_feedback := [fb] |} buffer
    = (Some true, buffer', Some [map fround reads]) /\
    length buffer' = length buffer /\
    (forall j, (j < length xs)%nat ->
       nth (w j) buffer' undefined_number =
       fround (plus (nth j xs undefined_number)
                    (times (nth j reads undefined_number) fb))) /\
    (forall p, (forall j, (j < length xs)%nat -> p <> w j) ->
       nth p buffer' undefined_number = nth p buffer undefined_number).
Proof.
  intros Hcf HD HDL Hn Hout L w.
  destruct (comb_channel_loop sampleRate currentFrame dt fb D buffer xs
              Hcf HD HDL Hn xs 0%nat buffer out [])
    as (reads & buffer' & Hrun & Hlen & Hspec & Hlenb & Hstored & Hkept);
    try reflexivity; try (intros j Hj; lia); try exact Hout.
  exists reads, buffer'.
  split; [split; [exact Hlen | exact Hspec] |].
  split.
  { unfold process. cbn [lookup list_lookup input_forEach].
    fold L in Hrun. fold L. rewrite Hrun. reflexivity. }
  split; [exact Hlenb |]. split; [exact Hstored | exact Hkept].
Qed.

(** Two blocks one after the other, the second at the frame where the
    first ends: a frame of the second block that lies [D] frames after a
    frame of the first reads what that frame stored, its input plus
    [feedback] times what it had read.  The recurrence of the comb filter
    goes on across blocks. *)
Theorem worklet_delay_carries_over_blocks sampleRate currentFrame dt fb
    (D : nat) (xs1 out1 xs2 out2 buffer : list Number) inputs outputs :
  0 <= currentFrame ->
  floor_times dt sampleRate = Z.of_nat D ->
  (1 <= D <= length buffer)%nat ->
  (length xs1 <= length buffer)%nat ->
  (length xs2 <= length buffer)%nat ->
  length out1 = length xs1 ->
  length out2 = length xs2 ->
  let parameters := {| param_delayTime := [dt]; param_feedback := [fb] |} in
  exists reads1 buffer1 reads2 buffer2,
    process sampleRate currentFrame ([xs1] :: inputs) ([out1] :: outputs)
      parameters buffer
    = (Some true, buffer1, Some [map fround reads1]) /\
    process sampleRate (currentFrame + Z.of_nat (length xs1))
      ([xs2] :: inputs) ([out2] :: outputs) parameters buffer1
    = (Some true, buffer2, Some [map fround reads2]) /\
    forall j, (j < length xs2)%nat -> (j < D)%nat ->
      (D <= j + length xs1)%nat ->
      nth j reads2 undefined_number =
      fround (plus (nth (j + length xs1 - D) xs1 undefined_number)
                   (times (nth (j + length xs1 - D) reads1 undefined_number)
                      fb)).
Proof.
  intros Hcf HD HDL Hn1 Hn2 Hout1 Hout2 parameters.
  destruct (process_comb_block sampleRate currentFrame dt fb D xs1 out1
              buffer inputs outputs Hcf HD HDL Hn1 Hout1)
    as (reads1 & buffer1 & _ & Hrun1 & Hlen1 & Hstored1 & _).
  destruct (process_comb_block sampleRate
              (currentFrame + Z.of_nat (length xs1)) dt fb D xs2 out2
              buffer1 inputs outputs)
    as (reads2 & buffer2 & [_ Hspec2] & Hrun2 & _);
    try lia; try exact HD; try exact Hout2.
  exists reads1, buffer1, reads2, buffer2.
  split; [exact Hrun1 |]. split; [exact Hrun2 |].
  intros j Hj HjD Hreach. rewrite (Hspec2 j Hj).
  destruct (Nat.ltb_spec j D); [| lia].
  rewrite <- (Hstored1 (j + length xs1 - D)%nat) by lia.
  rewrite Hlen1. do 3 f_equal. lia.
Qed.

End WorkletProperties.

(** * More runs on the small instrument *)

Section DemoMore.

#[local] Existing Instance demo.

Lemma demo_sampler_consistent buffers :
  table_consistent (demo_sampler buffers).
Proof. repeat split; constructor. Qed.

Lemma findClosest_more_samples_not_farther_witness :
  _findClosest store_60 62 = Normal 2 /\
  exists d', _findClosest store_60_64 62 = Normal d' /\ Z.abs d' <= Z.abs 2.
Proof.
  split; [reflexivity |].
  apply (findClosest_more_samples_not_farther (H := demo)
           store_60 store_60_64 62 2).
  - intros key Hkey.
    apply (@buffers_has_true demo) in Hkey as [buffer Hbuf].
    unfold store_60 in Hbuf. apply lookup_singleton_Some in Hbuf as [<- _].
    reflexivity.
  - reflexivity.
Defined.

Lemma triggerAttack_stacks_sources_witness :
  exists s',
    triggerAttack (Many [60; 62; 60]) 0 1 (demo_sampler store_60_64)
      = (Normal tt, s') /\
    length (sources_at s' 60) = 2%nat /\
    length (sources_at s' 62) = 1%nat.
Proof.
  destruct (triggerAttack_stacks_sources (H := demo) [60; 62; 60] 0 1
              (demo_sampler store_60_64)) as (s' & Hrun & Hcount).
  { repeat constructor.
    - exists 0. reflexivity.
    - exists (-2). reflexivity.
    - exists 0. reflexivity. }
  exists s'. split; [exact Hrun |].
  split; rewrite Hcount; reflexivity.
Defined.


Lemma triggerRelease_stops_at_computed_time_witness :
  let s := snd (triggerAttack (Many [60; 64]) 0 1 (demo_sampler store_60_64)) in
  let c := SourceStop (attack_source (demo_sampler store_60_64) 0%nat 0) 5 in
  In c (calls (snd (triggerRelease (Many [60; 64]) 5 s))) /\
  (In c (calls s) \/ exists source, c = SourceStop source (toSeconds 5)).
Proof.
  cbv zeta.
  assert (Hin :
    In (SourceStop (attack_source (demo_sampler store_60_64) 0%nat 0) 5)
    (calls (snd (triggerRelease (Many [60; 64]) 5
       (snd (triggerAttack (Many [60; 64]) 0 1
               (demo_sampler store_60_64)))))))
    by (right; right; left; reflexivity).
  split; [exact Hin |].
  exact (triggerRelease_stops_at_computed_time (H := demo)
           (Many [60; 64]) 5 _ _ (fun t => eq_refl) Hin).
Defined.

Lemma run_keeps_table_consistent_witness :
  table_consistent
    (run [CallTriggerAttack (Many [60; 60; 300]) 0 1;
          CallTriggerAttackRelease (One 62) (Many [1]) 0 1;
          CallTriggerRelease (One 60) 3;
          CallReleaseAll 4;
          CallDispose]
       (demo_sampler store_60_64)).
Proof.
  apply (run_keeps_table_consistent (H := demo)).
  apply demo_sampler_consistent.
Defined.


Lemma attack_then_end_restores_the_array_witness :
  exists buffer s1,
    triggerAttack (One 62) 0 1 (demo_sampler store_60_64) = (Normal tt, s1) /\
    sources_at
      (snd (onended 62 (attack_source (demo_sampler store_60_64) buffer (-2))
              s1)) 62
    = [].
Proof.
  destruct (attack_then_end_restores_the_array (H := demo)
              (demo_sampler store_60_64) 62 0 1 (-2)
              (demo_sampler_consistent store_60_64) eq_refl)
    as (buffer & s1 & _ & Hrun & Hat & _).
  exists buffer, s1. split; [exact Hrun | exact Hat].
Defined.


Lemma attackRelease_paired_durations_witness :
  exists s',
    triggerAttackRelease (Many [60; 62; 64]) (Many [1; 2]) 0 1
      (demo_sampler store_60_64) = (Normal tt, s') /\
    sources_at s' 64 = [] /\
    allocated s' = 3%nat.
Proof.
  destruct (attackRelease_paired_durations (H := demo) [60; 62; 64] [1; 2]
              0 1 (demo_sampler store_60_64))
    as (s' & started & stops & Hrun & _ & Halloc & _ & Hempty & _).
  { repeat constructor.
    - exists 0. reflexivity.
    - exists (-2). reflexivity.
    - exists 0. reflexivity. }
  exists s'. split; [exact Hrun |].
  split; [apply (Hempty 64); right; right; now left | exact Halloc].
Defined.

Lemma paired_duration_clamps_witness :
  paired_duration [1; 2] 0 = 1 /\
  paired_duration [1; 2] 5 = 2 /\
  paired_duration [] 3 = time_undefined.
Proof.
  destruct (paired_duration_clamps (H := demo) [1; 2] 0) as (Hown & _ & _).
  destruct (paired_duration_clamps (H := demo) [1; 2] 5) as (_ & Hlast & _).
  destruct (paired_duration_clamps (H := demo) [] 3) as (_ & _ & Hnone).
  split; [apply Hown; cbn; lia |].
  split; [apply Hlast; [cbn; lia | discriminate] | now apply Hnone].
Defined.

End DemoMore.

Section DemoWorklet.

Import Worklet.

#[local] Existing Instance demo_arithmetic.

Lemma worklet_no_delay_passes_input_through_witness :
  exists buffer',
    length buffer' = 4%nat /\
    process 4 0 [[[1; 2]; [3; 4]]] [[[0; 0]; [0; 0]]]
      (@Build_Parameters demo_arithmetic [0] [1]) [9; 9; 9; 9]
    = (Some true, buffer', Some [[1; 2]; [3; 4]]).
Proof.
  apply (worklet_no_delay_passes_input_through (H := demo_arithmetic)
           4 0 [[1; 2]; [3; 4]] [[0; 0]; [0; 0]] [] []
           (@Build_Parameters demo_arithmetic [0] [1]) [9; 9; 9; 9]).
  - intros index. cbn. lia.
  - repeat constructor.
Defined.

Lemma worklet_comb_recurrence_witness :
  exists reads buffer',
    comb_reads [7; 8; 9; 0] 0 2 1 [1; 2; 3] reads /\
    process 4 0 [[[1; 2; 3]]] [[[0; 0; 0]]]
      (@Build_Parameters demo_arithmetic [2] [1]) [7; 8; 9; 0]
    = (Some true, buffer', Some [map fround reads]).
Proof.
  destruct (worklet_comb_recurrence (H := demo_arithmetic) 4 0 2 1 2
              [1; 2; 3] [0; 0; 0] [7; 8; 9; 0] [] [])
    as (reads & buffer' & Hreads & Hrun & _);
    [lia | reflexivity | cbn; lia | cbn; lia | reflexivity |].
  exists reads, buffer'. split; [exact Hreads | exact Hrun].
Defined.

Lemma worklet_delay_carries_over_blocks_witness :
  exists reads1 buffer1 reads2 buffer2,
    process 4 0 [[[1; 2]]] [[[0; 0]]]
      (@Build_Parameters demo_arithmetic [3] [1]) [7; 8; 9; 0]
    = (Some true, buffer1, Some [map fround reads1]) /\
    process 4 2 [[[5; 6]]] [[[0; 0]]]
      (@Build_Parameters demo_arithmetic [3] [1]) buffer1
    = (Some true, buffer2, Some [map fround reads2]) /\
    nth 1 reads2 undefined_number
    = fround (plus (nth 0 [1; 2] undefined_number)
                   (times (nth 0 reads1 undefined_number) 1)).
Proof.
  destruct (worklet_delay_carries_over_blocks (H := demo_arithmetic) 4 0 3 1 3
              [1; 2] [0; 0] [5; 6] [0; 0] [7; 8; 9; 0] [] [])
    as (reads1 & buffer1 & reads2 & buffer2 & Hrun1 & Hrun2 & Hcarry);
    [lia | reflexivity | cbn; lia | cbn; lia | cbn; lia | reflexivity
     | reflexivity |].
  exists reads1, buffer1, reads2, buffer2.
  split; [exact Hrun1 |]. split; [exact Hrun2 |].
  apply (Hcarry 1%nat); cbn; lia.
Defined.

End DemoWorklet.
